(** * maptalks event framework: Eventable, MapTool, UIComponent

    A shallow embedding of [src/core/Event.js] (the [Z.Eventable] mixin), of
    the [Z.MapTool] base class and of [Z.ui.UIComponent.show], together with
    the properties of registration, dispatch, delegation and tool slots that
    the specification states about them. *)

From Stdlib Require Import Ascii.
From stdpp Require Import gmap strings list fin_maps.

Local Open Scope string_scope.
Local Open Scope list_scope.

#[local] Set Warnings "-clear-no-such-hyp".

(** ** JavaScript strings *)

Module JsString.

(** [String.prototype.toLowerCase] on the ASCII range.  Event types are taken
    to be ASCII strings: a capital outside that range, which JavaScript
    lowers too, is kept as it is here. *)
Definition lower_ascii (c : ascii) : ascii :=
  let n := nat_of_ascii c in
  if (65 <=? n)%nat && (n <=? 90)%nat then ascii_of_nat (n + 32) else c.

Fixpoint toLowerCase (s : string) : string :=
  match s with
  | EmptyString => EmptyString
  | String c r => String (lower_ascii c) (toLowerCase r)
  end.

(** [s.split(' ')]: always at least one token, empty tokens are kept. *)
Fixpoint split (s : string) : list string :=
  match s with
  | EmptyString => [EmptyString]
  | String c r =>
      if bool_decide (c = " "%char) then EmptyString :: split r
      else match split r with
           | t :: ts => String c t :: ts
           | [] => [String c EmptyString]
           end
  end.

(** A type string that is a single token: it holds no space. *)
Fixpoint single_token (s : string) : bool :=
  match s with
  | EmptyString => true
  | String c r => negb (bool_decide (c = " "%char)) && single_token r
  end.

End JsString.

Import JsString.

(** ** Values, functions and the store *)

(** Object references. *)
Definition ref := nat.

Inductive value :=
| VUndefined
| VBool (b : bool)
| VNum (n : Z)
| VStr (s : string)
| VRef (r : ref).

#[global] Instance value_eq_dec : EqDecision value.
Proof. solve_decision. Defined.

(** JavaScript truthiness, as tested by [!x] and [if (x)]. *)
Definition truthy (v : value) : bool :=
  match v with
  | VUndefined => false
  | VBool b => b
  | VNum n => negb (n =? 0)%Z
  | VStr s => negb (bool_decide (s = EmptyString))
  | VRef _ => true
  end.

(** The code a function object runs: a function of the host program, or one
    of the two [UIComponent] methods that are registered as listeners. *)
Inductive code :=
| User (id : nat)
| OnZooming
| OnZoomEnd.

#[global] Instance code_eq_dec : EqDecision code.
Proof. solve_decision. Defined.

(** Function objects.  [Native c] is a function of the program; its identity
    is [c].  [OnceHandler cell me evtType handler context] is the closure
    returned by [_wrapOnceHandler]: [cell] is the address of the closure (and
    of its captured [called] variable), the other arguments are the captured
    variables that are never assigned.  Each call of [_wrapOnceHandler]
    allocates a new [cell], so structural equality of [fn] is JavaScript's
    [===] on function objects. *)
Inductive fn :=
| Native (c : code)
| OnceHandler (cell : nat) (me : ref) (evtType : string) (handler : fn)
    (context : option ref).

#[global] Instance fn_eq_dec : EqDecision fn.
Proof. solve_decision. Defined.

(** One element of a handler chain: [{handler: handler, context: context}]. *)
Record subscriber := Subscriber {
  handler : fn;
  context : option ref
}.

#[global] Instance subscriber_eq_dec : EqDecision subscriber.
Proof. solve_decision. Defined.

(** The fields the mixin keeps on an object.  [None] is an absent (or null)
    field. *)
Record emitter := Emitter {
  _eventMap : option (gmap string (list subscriber));
  _eventParent : option ref
}.

(** A plain object: its own properties. *)
Abbreviation obj := (gmap string value).

Section Eventable.

(** State of the program outside the event framework (tools, overlays). *)
Context {X : Type}.

Record store := Store {
  emitters : gmap ref emitter;
  heap : gmap ref obj;
  called : gmap nat bool;
  stopped : list value;
  ext : X
}.

(** An object that has not yet used the mixin has neither field. *)
Definition get_emitter (s : store) (e : ref) : emitter :=
  default (Emitter None None) (emitters s !! e).

Definition set_emitter (e : ref) (em : emitter) (s : store) : store :=
  Store (<[e := em]> (emitters s)) (heap s) (called s) (stopped s) (ext s).

Definition set_heap (h : gmap ref obj) (s : store) : store :=
  Store (emitters s) h (called s) (stopped s) (ext s).

Definition set_called (c : gmap nat bool) (s : store) : store :=
  Store (emitters s) (heap s) c (stopped s) (ext s).

Definition set_stopped (l : list value) (s : store) : store :=
  Store (emitters s) (heap s) (called s) l (ext s).

Definition set_ext (x : X) (s : store) : store :=
  Store (emitters s) (heap s) (called s) (stopped s) x.

(** [this._eventMap[evtType]], for a type that is an own key of the map or
    no key of it.  [this._eventMap] is a plain object, so for the two types
    that are inherited keys of every plain object ([constructor] and
    [__proto__], see [plain_type]) the code reads an inherited value that is
    no chain; these two types are outside this model, which reads an absent
    chain there. *)
Definition get_chain (s : store) (e : ref) (evtType : string)
  : option (list subscriber) :=
  m ← _eventMap (get_emitter s e); m !! evtType.

(** [this._eventMap[evtType] = chain], on an emitter whose map exists. *)
Definition set_chain (e : ref) (evtType : string) (chain : list subscriber)
    (s : store) : store :=
  let em := get_emitter s e in
  set_emitter e
    (Emitter (Some (<[evtType := chain]> (default ∅ (_eventMap em))))
             (_eventParent em)) s.

(** [handler === sub.handler && sub.context === context] *)
Definition same_pair (h : fn) (ctx : ref) (sub : subscriber) : bool :=
  bool_decide (h = handler sub) && bool_decide (context sub = Some ctx).

(** *** on *)

(** The loop over [eventTypes] of [on] (lines 30-46).  Finding the pair in a
    chain returns from [on]: the tokens after it are not visited. *)
Fixpoint on_types (this : ref) (h : fn) (ctx : ref) (eventTypes : list string)
    (s : store) : store :=
  match eventTypes with
  | [] => s
  | t :: rest =>
      let evtType := toLowerCase t in
      let s1 := match get_chain s this evtType with
                | Some _ => s
                | None => set_chain this evtType [] s
                end in
      let handlerChain := default [] (get_chain s1 this evtType) in
      if existsb (same_pair h ctx) handlerChain then s1
      else on_types this h ctx rest
             (set_chain this evtType
                (handlerChain ++ [Subscriber h (Some ctx)]) s1)
  end.

(** [on(eventsOn, handler, context)] with a string [eventsOn].  [handler] and
    [context] are [None] when the argument is missing or falsy. *)
Definition on (this : ref) (eventsOn : string) (h : option fn)
    (ctx : option ref) (s : store) : store :=
  match h with
  | None => s
  | Some h =>
      if bool_decide (eventsOn = EmptyString) then s
      else
        let em := get_emitter s this in
        let s1 := match _eventMap em with
                  | Some _ => s
                  | None =>
                      set_emitter this (Emitter (Some ∅) (_eventParent em)) s
                  end in
        on_types this h (default this ctx) (split eventsOn) s1
  end.

(** *** off *)

(** The reverse scan of [off] (lines 117-121): [i] indices remain, the next
    one visited is [i - 1]; a match is spliced out. *)
Fixpoint off_scan (h : fn) (ctx : ref) (i : nat) (chain : list subscriber)
  : list subscriber :=
  match i with
  | O => chain
  | S j =>
      off_scan h ctx j
        (match chain !! j with
         | Some sub => if same_pair h ctx sub then delete j chain else chain
         | None => chain
         end)
  end.

(** The loop over [eventTypes] of [off] (lines 113-122).  A token without a
    chain returns from [off]. *)
Fixpoint off_types (this : ref) (h : fn) (ctx : ref) (eventTypes : list string)
    (s : store) : store :=
  match eventTypes with
  | [] => s
  | t :: rest =>
      let eventType := toLowerCase t in
      match get_chain s this eventType with
      | None => s
      | Some handlerChain =>
          off_types this h ctx rest
            (set_chain this eventType
               (off_scan h ctx (length handlerChain) handlerChain) s)
      end
  end.

Definition off (this : ref) (eventsOff : string) (h : option fn)
    (ctx : option ref) (s : store) : store :=
  match h with
  | None => s
  | Some h =>
      if bool_decide (eventsOff = EmptyString) then s
      else match _eventMap (get_emitter s this) with
           | None => s
           | Some _ => off_types this h (default this ctx) (split eventsOff) s
           end
  end.

(** *** _switch: [on] and [off] with an object of type -> handler *)

Inductive switch_to := To_on | To_off.

Definition _switch (to : switch_to) (this : ref)
    (eventKeys : list (string * fn)) (ctx : option ref) (s : store) : store :=
  fold_left
    (fun s p =>
       match to with
       | To_on => on this (fst p) (Some (snd p)) ctx s
       | To_off => off this (fst p) (Some (snd p)) ctx s
       end)
    eventKeys s.

(** [on(eventsOn, handler)] with an object [eventsOn]: the second argument is
    the context of every entry. *)
Definition on_keys (this : ref) (eventsOn : list (string * fn))
    (h : option ref) (s : store) : store :=
  match h with
  | None => s
  | Some c => _switch To_on this eventsOn (Some c) s
  end.

Definition off_keys (this : ref) (eventsOff : list (string * fn))
    (h : option ref) (s : store) : store :=
  match h with
  | None => s
  | Some c =>
      match _eventMap (get_emitter s this) with
      | None => s
      | Some _ => _switch To_off this eventsOff (Some c) s
      end
  end.

(** *** listens, _clearAllListeners, _setEventParent *)

(** The counting loop of [listens] (lines 158-169). *)
Fixpoint listens_loop (h : option fn) (ctx : option ref)
    (chain : list subscriber) (count : nat) : nat :=
  match chain with
  | [] => count
  | sub :: rest =>
      match h with
      | Some f =>
          if bool_decide (f = handler sub) &&
             match ctx with
             | None => true
             | Some c => bool_decide (context sub = Some c)
             end
          then 1
          else listens_loop h ctx rest count
      | None => listens_loop h ctx rest (S count)
      end
  end.

Definition listens (this : ref) (eventType : string) (h : option fn)
    (ctx : option ref) (s : store) : nat :=
  match get_chain s this (toLowerCase eventType) with
  | None => 0
  | Some handlerChain => listens_loop h ctx handlerChain 0
  end.

Definition _clearAllListeners (this : ref) (s : store) : store :=
  set_emitter this (Emitter None (_eventParent (get_emitter s this))) s.

Definition _setEventParent (this : ref) (parent : option ref) (s : store)
  : store :=
  set_emitter this (Emitter (_eventMap (get_emitter s this)) parent) s.

(** *** Objects *)

Definition get_obj (s : store) (r : ref) : obj := default ∅ (heap s !! r).

Definition get_prop (s : store) (r : ref) (k : string) : value :=
  default VUndefined (get_obj s r !! k).

(** [r[k] = v] *)
Definition set_prop (r : ref) (k : string) (v : value) (s : store) : store :=
  set_heap (<[r := <[k := v]> (get_obj s r)]> (heap s)) s.

(** The address of the next object created: one that no object has. *)
Definition fresh_ref (s : store) : ref :=
  fresh (dom (heap s) ∪ dom (emitters s)).

(** [{}] *)
Definition new_object (s : store) : ref * store :=
  let r := fresh_ref s in (r, set_heap (<[r := ∅]> (heap s)) s).

(** Modelled from the spec: [Z.Util.extend({}, src)], whose source is not in
    the repository sample; the per-handler re-clone, a new object that holds
    the own properties of [src]. *)
Definition extend_new (src : ref) (s : store) : ref * store :=
  let r := fresh_ref s in (r, set_heap (<[r := get_obj s src]> (heap s)) s).

(** Modelled from the spec: [Z.DomUtil.stopPropagation(e)], whose source is
    not in the repository sample; the low-level event is recorded as halted. *)
Definition stopPropagation (e : value) (s : store) : store :=
  set_stopped (stopped s ++ [e]) s.

(** *** Calling function objects *)

(** One function call: the function, its [this], its arguments and the store
    it was entered with.  [e_depth] is 0 for a call made by the dispatcher
    and grows by one for the call a [onceHandler] makes. *)
Record entry := Entry {
  e_depth : nat;
  e_fn : fn;
  e_this : option ref;
  e_args : list value;
  e_store : store
}.

Definition deeper (e : entry) : entry :=
  Entry (S (e_depth e)) (e_fn e) (e_this e) (e_args e) (e_store e).

(** The functions of the program: what [User id] does to the store when it
    is called with [this] and arguments, and what it returns. *)
Variable body : code → option ref → list value → store → value * store.

(** [f.apply(this, args)].  The second case is the body of [onceHandler]
    (lines 80-91). *)
Fixpoint call_fn (f : fn) (this : option ref) (args : list value) (s : store)
  : value * store * list entry :=
  match f with
  | Native c =>
      let '(r, s1) := body c this args s in (r, s1, [Entry 0 f this args s])
  | OnceHandler cell me evtType h ctx =>
      if default false (called s !! cell) then
        (VUndefined, s, [Entry 0 f this args s])
      else
        let s1 := set_called (<[cell := true]> (called s)) s in
        let '(_, s2, tr) :=
          call_fn h (match ctx with Some c => Some c | None => this end)
            args s1 in
        (VUndefined, off me evtType (Some f) this s2,
         Entry 0 f this args s :: map deeper tr)
  end.

(** *** once *)

(** [_wrapOnceHandler(evtType, handler, context)]: a new closure whose
    [called] variable starts false. *)
Definition _wrapOnceHandler (me : ref) (evtType : string) (h : fn)
    (ctx : option ref) (s : store) : fn * store :=
  let cell := fresh (dom (called s)) in
  (OnceHandler cell me evtType h ctx,
   set_called (<[cell := false]> (called s)) s).

(** The loop of [once] over the tokens (lines 71-73): one closure each. *)
Fixpoint once_types (this : ref) (evetTypes : list string) (h : fn)
    (ctx : option ref) (s : store) : store :=
  match evetTypes with
  | [] => s
  | t :: rest =>
      let '(w, s1) := _wrapOnceHandler this t h ctx s in
      once_types this rest h ctx (on this t (Some w) None s1)
  end.

(** [once(eventTypes, handler, context)] with a string [eventTypes]. *)
Definition once (this : ref) (eventTypes : string) (h : fn)
    (ctx : option ref) (s : store) : store :=
  once_types this (split eventTypes) h ctx s.

(** The loop of [once] over the keys of an object (lines 63-67). *)
Fixpoint once_wrap (this : ref) (eventTypes : list (string * fn))
    (ctx : option ref) (s : store) : list (string * fn) * store :=
  match eventTypes with
  | [] => ([], s)
  | (p, h) :: rest =>
      let '(w, s1) := _wrapOnceHandler this p h ctx s in
      let '(ws, s2) := once_wrap this rest ctx s1 in
      ((p, w) :: ws, s2)
  end.

(** [once(eventTypes, handler, context)] with an object [eventTypes]. *)
Definition once_keys (this : ref) (eventTypes : list (string * fn))
    (ctx : option ref) (s : store) : store :=
  let '(once, s1) := once_wrap this eventTypes ctx s in
  _switch To_on this once None s1.

(** *** fire *)

(** The dispatch loop of [_fire] (lines 228-244) over the copied [queue].
    Every element of the queue is a subscriber object, so the test
    [if (!queue[i]) continue] never skips one. *)
Fixpoint fire_queue (param : ref) (queue : list subscriber) (s : store)
  : store * list entry :=
  match queue with
  | [] => (s, [])
  | sub :: rest =>
      let '(passed, s1) := extend_new param s in
      let '(bubble, s2, tr) :=
        call_fn (handler sub) (context sub) [VRef passed] s1 in
      let s3 :=
        if bool_decide (bubble = VBool false) then
          if truthy (get_prop s2 param "domEvent")
          then stopPropagation (get_prop s2 param "domEvent") s2
          else s2
        else s2 in
      let '(s4, tr') := fire_queue param rest s3 in
      (s4, tr ++ tr')
  end.

(** [_fire(eventType, param)]; the value returned is always [this]. *)
Definition _fire (this : ref) (eventType : string) (param : option ref)
    (s : store) : store * list entry :=
  match get_chain s this (toLowerCase eventType) with
  | None => (s, [])
  | Some handlerChain =>
      let '(p, s1) := match param with
                      | Some p => (p, s)
                      | None => new_object s
                      end in
      let s2 := set_prop p "type" (VStr eventType) s1 in
      let s3 := set_prop p "target" (VRef this) s2 in
      (* [].concat(handlerChain): the loop runs over this copy, which later
         writes to the chain in the store do not reach *)
      let queue := handlerChain in
      fire_queue p queue s3
  end.

(** [fire(eventType, param)].  The walk along [_eventParent] need not end;
    [fuel] bounds its length, and [None] is a walk that did not end within
    it.  The result holds the object returned, the store and the calls. *)
Fixpoint fire (fuel : nat) (this : ref) (eventType : string)
    (param : option ref) (s : store) : option (ref * store * list entry) :=
  match fuel with
  | O => None
  | S n =>
      match _eventParent (get_emitter s this) with
      | Some parent => fire n parent eventType param s
      | None =>
          let '(s1, tr) := _fire this eventType param s in
          Some (this, s1, tr)
      end
  end.

(** The calls the dispatcher made itself. *)
Definition direct_entries (tr : list entry) : list entry :=
  filter (λ e, e_depth e = 0) tr.

(** The same calls as (function, this) pairs. *)
Definition direct (tr : list entry) : list subscriber :=
  map (λ e, Subscriber (e_fn e) (e_this e)) (direct_entries tr).

(** The object [_fire] stamps: the one passed, or the new [{}]. *)
Definition payload (param : option ref) (s : store) : ref :=
  match param with
  | Some p => p
  | None => fresh_ref s
  end.

(** The subscribers of [chain] are functions of the program other than
    [c]. *)
Definition others (c : code) (chain : list subscriber) : Prop :=
  Forall (λ sub, ∃ c', handler sub = Native c' ∧ c' ≠ c) chain.

(** [s'] has the state outside the event framework and the delegation
    targets of [s]. *)
Definition framed (s s' : store) : Prop :=
  ext s' = ext s ∧
  ∀ e, _eventParent (get_emitter s' e) = _eventParent (get_emitter s e).

(** The functions of the program leave both alone. *)
Definition leaves_frame : Prop :=
  ∀ c this args s, framed s (body c this args s).2.

(** The functions of the program never delete an object. *)
Definition keeps_objects : Prop :=
  ∀ c this args s, dom (heap s) ⊆ dom (heap (body c this args s).2).

(** The functions of the program write to the object [p] only when it is
    among their arguments. *)
Definition spares (p : ref) : Prop :=
  ∀ c this args s,
    VRef p ∉ args → get_obj (body c this args s).2 p = get_obj s p.

(** The number of calls of [f], at any depth. *)
Definition count_calls (f : fn) (tr : list entry) : nat :=
  length (filter (λ e, e_fn e = f) tr).

(** [walk s a r k]: following [_eventParent] from [a] for [k] steps ends at
    [r], which has no delegation target. *)
Inductive walk (s : store) : ref → ref → nat → Prop :=
| walk_here a :
    _eventParent (get_emitter s a) = None → walk s a a 0
| walk_up a b r k :
    _eventParent (get_emitter s a) = Some b → walk s b r k →
    walk s a r (S k).

(** [sub] is in the chain of [evtType] on [e]. *)
Definition registered (s : store) (e : ref) (evtType : string)
    (sub : subscriber) : Prop :=
  ∃ chain, get_chain s e evtType = Some chain ∧ sub ∈ chain.

(** [s'] differs from [s] in handler chains only. *)
Definition chains_only (s s' : store) : Prop :=
  heap s' = heap s ∧ called s' = called s ∧ stopped s' = stopped s ∧
  ext s' = ext s ∧
  ∀ e, _eventParent (get_emitter s' e) = _eventParent (get_emitter s e).

(** The function [c] leaves registrations, delegation targets and the guards
    of once-handlers alone. *)
Definition leaves_events (c : code) : Prop :=
  ∀ this args s,
    emitters (body c this args s).2 = emitters s ∧
    called (body c this args s).2 = called s.

End Eventable.

Arguments store : clear implicits.
Arguments entry : clear implicits.
Arguments on : simpl never.
Arguments off : simpl never.

(** ** MapTool *)

Module MapTool.

(** The fields of a tool.  [name] is [this.name] as the string that
    ['_tool' + this.name] appends: ["undefined"] for a tool whose class
    defines no [name], so that such tools share one slot whatever their
    class.  [getEvents] is what the method of the concrete class returns;
    [onAdd], [onEnable] and [onDisable] are its optional callbacks. *)
Record tool := Tool {
  _map : option ref;
  _enabled : bool;
  name : string;
  getEvents : option (list (string * fn));
  onAdd : option fn;
  onEnable : option fn;
  onDisable : option fn
}.

(** The tools, and the properties [map[key]] that [addTo] writes on maps. *)
Record state := State {
  tools : gmap ref tool;
  props : gmap (ref * string) ref
}.

Section MapTool.

Variable body :
  code → option ref → list value → store state → value * store state.

Definition get_tool (s : store state) (t : ref) : tool :=
  default (Tool None false "undefined" None None None None)
          (tools (ext s) !! t).

Definition set_tool (t : ref) (tl : tool) (s : store state) : store state :=
  set_ext (State (<[t := tl]> (tools (ext s))) (props (ext s))) s.

(** [this._enabled = b] *)
Definition with_enabled (b : bool) (tl : tool) : tool :=
  Tool (_map tl) b (name tl) (getEvents tl) (onAdd tl) (onEnable tl)
       (onDisable tl).

Definition set_enabled (t : ref) (b : bool) (s : store state) : store state :=
  set_tool t (with_enabled b (get_tool s t)) s.

(** [this._map = m] *)
Definition with_map (m : ref) (tl : tool) : tool :=
  Tool (Some m) (_enabled tl) (name tl) (getEvents tl) (onAdd tl)
       (onEnable tl) (onDisable tl).

Definition set_map (t : ref) (m : ref) (s : store state) : store state :=
  set_tool t (with_map m (get_tool s t)) s.

Definition get_slot (s : store state) (m : ref) (key : string) : option ref :=
  props (ext s) !! (m, key).

Definition set_slot (m : ref) (key : string) (t : ref) (s : store state)
  : store state :=
  set_ext (State (tools (ext s)) (<[(m, key) := t]> (props (ext s)))) s.

(** [if (this.hook) this.hook()] *)
Definition call_hook (hook : option fn) (this : ref) (s : store state)
  : store state * list (entry state) :=
  match hook with
  | None => (s, [])
  | Some f => let '(_, s1, tr) := call_fn body f (Some this) [] s in (s1, tr)
  end.

Definition _fireEvent (fuel : nat) (this : ref) (eventName : string)
    (param : option ref) (s : store state)
  : option (store state * list (entry state)) :=
  let '(p, s1) := match param with
                  | Some p => (p, s)
                  | None => new_object s
                  end in
  '(_, s2, tr) ← fire body fuel this eventName (Some p) s1;
  Some (s2, tr).

(** [this._map[to](events, this)]; both callers have tested [this._map]. *)
Definition _switchEvents (to : switch_to) (this : ref) (s : store state)
  : store state :=
  match getEvents (get_tool s this) with
  | None => s
  | Some events =>
      match _map (get_tool s this) with
      | None => s
      | Some m =>
          match to with
          | To_on => on_keys m events (Some this) s
          | To_off => off_keys m events (Some this) s
          end
      end
  end.

Definition _registerEvents (this : ref) (s : store state) : store state :=
  _switchEvents To_on this s.

Definition enable (fuel : nat) (this : ref) (s : store state)
  : option (store state * list (entry state)) :=
  match _map (get_tool s this) with
  | None => Some (s, [])
  | Some _ =>
      if _enabled (get_tool s this) then Some (s, [])
      else
        let s1 := set_enabled this true s in
        let s2 := _switchEvents To_off this s1 in
        let s3 := _registerEvents this s2 in
        let '(s4, tr1) := call_hook (onEnable (get_tool s3 this)) this s3 in
        '(s5, tr2) ← _fireEvent fuel this "enable" None s4;
        Some (s5, tr1 ++ tr2)
  end.

Definition disable (fuel : nat) (this : ref) (s : store state)
  : option (store state * list (entry state)) :=
  if negb (_enabled (get_tool s this)) then Some (s, [])
  else
    match _map (get_tool s this) with
    | None => Some (s, [])
    | Some _ =>
        let s1 := set_enabled this false s in
        let s2 := _switchEvents To_off this s1 in
        let '(s3, tr1) := call_hook (onDisable (get_tool s2 this)) this s2 in
        '(s4, tr2) ← _fireEvent fuel this "disable" None s3;
        Some (s4, tr1 ++ tr2)
    end.

Definition addTo (fuel : nat) (this : ref) (map : option ref)
    (s : store state) : option (store state * list (entry state)) :=
  match map with
  | None => Some (s, [])
  | Some m =>
      let s1 := set_map this m s in
      let key := "_tool" +:+ name (get_tool s1 this) in
      '(s2, tr1) ← match get_slot s1 m key with
                   | Some occupant => disable fuel occupant s1
                   | None => Some (s1, [])
                   end;
      let '(s3, tr2) := call_hook (onAdd (get_tool s2 this)) this s2 in
      '(s4, tr3) ← enable fuel this s3;
      let s5 := set_slot m key this s4 in
      '(s6, tr4) ← _fireEvent fuel this "add" None s5;
      Some (s6, tr1 ++ tr2 ++ tr3 ++ tr4)
  end.

Definition getMap (this : ref) (s : store state) : option ref :=
  _map (get_tool s this).

Definition isEnabled (this : ref) (s : store state) : bool :=
  if negb (_enabled (get_tool s this)) then false else true.

End MapTool.

End MapTool.

(** ** UIComponent *)

Module UIComponent.

(** What a component is added to: a map, or a geometry that is on a map. *)
Inductive owner :=
| OwnerMap (m : ref)
| OwnerGeometry (g : ref).

Section UIComponent.

(** [maptalks.Coordinate], and the state of the document. *)
Context {Coordinate Dom : Type}.

(** The fields of a component; [getEvents] is what the optional method of
    the concrete class returns. *)
Record component := Component {
  _owner : option owner;
  _coordinate : option Coordinate;
  __uiDOM : option ref;
  getEvents : option (list (string * fn))
}.

(** The components, the map each geometry is on (what [Geometry.getMap]
    returns) and the document. *)
Record state := State {
  components : gmap ref component;
  geometry_map : gmap ref ref;
  document : Dom
}.

Variable body :
  code → option ref → list value → store state → value * store state.

(** Lines 116-153 of [show]: removing the previous element, [buildOn] of the
    concrete class, measuring, placing and appending the element, stopping
    its DOM events and panning the map.  They run on the browser's document,
    the map's projection and the concrete class, which are outside the
    sources at hand, so this part is a parameter. *)
Variable place_dom : ref → ref → store state → store state.

(** How [show] ends. *)
Inductive completion :=
| Returned (s : store state) (tr : list (entry state))
| Thrown (msg : string) (s : store state) (tr : list (entry state))
| Unfinished.

Definition get_component (s : store state) (u : ref) : component :=
  default (Component None None None None) (components (ext s) !! u).

Definition set_component (u : ref) (c : component) (s : store state)
  : store state :=
  set_ext (State (<[u := c]> (components (ext s))) (geometry_map (ext s))
             (document (ext s))) s.

Definition set_coordinate (u : ref) (c : Coordinate) (s : store state)
  : store state :=
  let cm := get_component s u in
  set_component u
    (Component (_owner cm) (Some c) (__uiDOM cm) (getEvents cm)) s.

(** [addTo(owner)] *)
Definition addTo (fuel : nat) (this : ref) (o : owner) (s : store state)
  : option (store state * list (entry state)) :=
  let cm := get_component s this in
  let s1 := set_component this
              (Component (Some o) (_coordinate cm) (__uiDOM cm) (getEvents cm))
              s in
  '(_, s2, tr) ← fire body fuel this "add" None s1;
  Some (s2, tr).

(** [getMap()]; [None] when there is no owner to ask (a TypeError) or the
    owning geometry is on no map. *)
Definition getMap (this : ref) (s : store state) : option ref :=
  match _owner (get_component s this) with
  | Some (OwnerMap m) => Some m
  | Some (OwnerGeometry g) => geometry_map (ext s) !! g
  | None => None
  end.

(** Modelled from the spec: [Z.Util.extend(dest, src)], whose source is not
    in the repository sample, on objects whose keys are kept in order: each
    property of [src] is assigned on [dest]. *)
Fixpoint assign (k : string) (f : fn) (dest : list (string * fn))
  : list (string * fn) :=
  match dest with
  | [] => [(k, f)]
  | (k', f') :: rest =>
      if bool_decide (k = k') then (k, f) :: rest
      else (k', f') :: assign k f rest
  end.

Definition extend (dest src : list (string * fn)) : list (string * fn) :=
  fold_left (fun d p => assign (fst p) (snd p) d) src dest.

Definition _getDefaultEvents : list (string * fn) :=
  [("zooming", Native OnZooming); ("zoomend", Native OnZoomEnd)].

(** [_switchEvents(to)], with the map that [getMap()] returned. *)
Definition _switchEvents (to : switch_to) (this map : ref) (s : store state)
  : store state :=
  let events := match getEvents (get_component s this) with
                | Some more => extend _getDefaultEvents more
                | None => _getDefaultEvents
                end in
  fold_left
    (fun s p =>
       match to with
       | To_on => on map (fst p) (Some (snd p)) (Some this) s
       | To_off => off map (fst p) (Some (snd p)) (Some this) s
       end)
    events s.

(** [show] from line 109 on, once the coordinate to show is known. *)
Definition show_at (fuel : nat) (this : ref) (coordinate : Coordinate)
    (s : store state) : completion :=
  match fire body fuel this "showstart" None s with
  | None => Unfinished
  | Some (_, s1, tr1) =>
      match getMap this s1 with
      | None => Thrown "TypeError" s1 tr1
      | Some map =>
          let s2 := match __uiDOM (get_component s1 this) with
                    | None => _switchEvents To_on this map s1
                    | Some _ => s1
                    end in
          let s3 := set_coordinate this coordinate s2 in
          let s4 := place_dom this map s3 in
          match fire body fuel this "showend" None s4 with
          | None => Unfinished
          | Some (_, s5, tr2) => Returned s5 (tr1 ++ tr2)
          end
      end
  end.

(** [show(coordinate)]; [None] is a missing argument. *)
Definition show (fuel : nat) (this : ref) (coordinate : option Coordinate)
    (s : store state) : completion :=
  match coordinate with
  | Some c => show_at fuel this c s
  | None =>
      match _coordinate (get_component s this) with
      | Some c => show_at fuel this c s
      | None => Thrown "UI's show coordinate is invalid" s []
      end
  end.

End UIComponent.

End UIComponent.

(** ** Concrete programs *)

Module Demo.

(** Functions of the program that do nothing. *)
Definition idle {X : Type}
  : code → option ref → list value → store X → value * store X :=
  λ _ _ _ s, (VUndefined, s).

Definition h1 : fn := Native (User 1).
Definition h2 : fn := Native (User 2).
Definition h3 : fn := Native (User 3).

(** No object has used the mixin yet. *)
Definition s0 : store unit := Store ∅ ∅ ∅ [] tt.

(** Emitter 0 after [on('a', h1)], and after [on('b', h1)]. *)
Definition registered_a : store unit := on 0 "a" (Some h1) None s0.
Definition registered_b : store unit := on 0 "b" (Some h1) None s0.

(** Emitter 0 with [h2] listening to [click]. *)
Definition one_listener : store unit := on 0 "click" (Some h2) None s0.

(** Emitter 0 with [h1] then [h2] on type [t]; [h1] unregisters [h2] and
    registers [h3] for the same type when it runs. *)
Definition two_listeners : store unit :=
  on 0 "t" (Some h2) None (on 0 "t" (Some h1) None s0).

Definition meddling
  : code → option ref → list value → store unit → value * store unit :=
  λ c _ _ s,
    match c with
    | User 1 =>
        (VUndefined, on 0 "t" (Some h3) None (off 0 "t" (Some h2) None s))
    | _ => (VUndefined, s)
    end.

(** Emitter 0 with [h1] then [h2] on type [x], and the caller's payload
    [{a: 1}] at address 5; every function overwrites [a] on its argument. *)
Definition with_payload : store unit :=
  set_heap {[5 := {["a" := VNum 1]}]}
    (on 0 "x" (Some h2) None (on 0 "x" (Some h1) None s0)).

Definition scribbling
  : code → option ref → list value → store unit → value * store unit :=
  λ _ _ args s,
    match args with
    | [VRef r] => (VUndefined, set_prop r "a" (VNum 99) s)
    | _ => (VUndefined, s)
    end.

(** Emitters 0, 1 and 2 each with a listener of [x]; 0 delegates to 1. *)
Definition three_emitters : store unit :=
  on 2 "x" (Some h3) None
    (on 1 "x" (Some h2) None (on 0 "x" (Some h1) None s0)).

Definition delegating : store unit :=
  _setEventParent 0 (Some 1) three_emitters.

(** The same, with 1 delegating to 2 in turn. *)
Definition delegating_twice : store unit :=
  _setEventParent 1 (Some 2) delegating.

(** The map 10 with the enabled tool 11 in its slot, and the new tool 12 of
    the same class. *)
Definition tool1 : MapTool.tool :=
  MapTool.Tool (Some 10) true "DistanceTool" (Some [("click", h1)])
    None None None.

Definition tool2 : MapTool.tool :=
  MapTool.Tool None false "DistanceTool" (Some [("click", h2)])
    None None None.

Definition one_tool : store MapTool.state :=
  on 10 "click" (Some h1) (Some 11)
    (Store ∅ ∅ ∅ []
       (MapTool.State {[11 := tool1; 12 := tool2]}
          {[(10, "_toolDistanceTool") := 11]})).

End Demo.

(** ** Further definitions *)

Section EventableMore.

Context {X : Type}.

(** [f] is a closure made by [_wrapOnceHandler]. *)
Definition is_once_fn (f : fn) : Prop :=
  match f with
  | OnceHandler _ _ _ _ _ => True
  | Native _ => False
  end.

(** [_clearListeners(eventType)].  The chain is looked up under the
    lowercased type, and [null] is then assigned under the type as it was
    passed.  A [null] entry reads as an absent chain in [on], [off],
    [listens] and [_fire], which all test [!handlerChain], so assigning it
    is the removal of the key. *)
Definition _clearListeners (this : ref) (eventType : string) (s : store X)
  : store X :=
  match get_chain s this (toLowerCase eventType) with
  | None => s
  | Some _ =>
      let em := get_emitter s this in
      set_emitter this
        (Emitter (Some (delete eventType (default ∅ (_eventMap em))))
                 (_eventParent em)) s
  end.

(** No chain holds the same (handler, context) pair twice. *)
Definition nodup_chains (s : store X) : Prop :=
  ∀ e t chain, get_chain s e t = Some chain → NoDup chain.

(** The pair [listens] looks for: the handler, and the context when one is
    given. *)
Definition listens_match (h : fn) (ctx : option ref) (sub : subscriber)
  : Prop :=
  handler sub = h ∧
  match ctx with
  | None => True
  | Some c => context sub = Some c
  end.

#[global] Instance listens_match_dec h ctx sub :
  Decision (listens_match h ctx sub).
Proof. unfold listens_match. destruct ctx; apply _. Defined.

(** From [s] to [s'] no subscriber was added to a chain, and none was
    removed whose handler is a function of the program: only closures of
    [once] have left. *)
Definition wrappers_left (s s' : store X) : Prop :=
  ∀ e t sub,
    (registered s' e t sub → registered s e t sub) ∧
    (¬ is_once_fn (handler sub) → registered s e t sub →
     registered s' e t sub).

(** The types that are, once lowercased, keys every plain object inherits
    from [Object.prototype]; the other inherited keys hold a capital letter,
    which no lowercased type has.  A type is plain when it is none of
    them. *)
Definition inherited_keys : list string := ["constructor"; "__proto__"].

Definition plain_type (t : string) : Prop :=
  toLowerCase t ∉ inherited_keys.





Variable body : code → option ref → list value → store X → value * store X.

(** The functions of the program do not stop or release DOM events
    themselves. *)
Definition leaves_stopped : Prop :=
  ∀ c this args s, stopped (body c this args s).2 = stopped s.

(** Every function of the program returns [false]. *)
Definition all_refuse : Prop :=
  ∀ c this args s, (body c this args s).1 = VBool false.

End EventableMore.

(** ** TextBox *)

Module TextBox.

Section TextBox.

Context {X : Type}.

(** The properties [o] with [a] and [b] exchanged at [k]. *)
Definition reversed (k a b : string) (o : obj) : obj :=
  if bool_decide (o !! k = Some (VStr a)) then <[k := VStr b]> o
  else if bool_decide (o !! k = Some (VStr b)) then <[k := VStr a]> o
  else o.

(** [if (o[k] === a) { o[k] = b; } else if (o[k] === b) { o[k] = a; }] *)
Definition swap_prop (k a b : string) (o : ref) (s : store X) : store X :=
  if bool_decide (get_prop s o k = VStr a) then set_prop o k (VStr b) s
  else if bool_decide (get_prop s o k = VStr b) then set_prop o k (VStr a) s
  else s.

(** [_getInternalSymbol()], for the object [this._symbol]: the alignments
    are reversed on a copy, which is returned. *)
Definition _getInternalSymbol (symbol : ref) (s : store X) : ref * store X :=
  let '(textSymbol, s1) := extend_new symbol s in
  let s2 :=
    swap_prop "textHorizontalAlignment" "left" "right" textSymbol s1 in
  let s3 :=
    swap_prop "textVerticalAlignment" "top" "bottom" textSymbol s2 in
  (textSymbol, s3).

End TextBox.

End TextBox.

(** ** What a tool declares *)


(** ** The DOM part of show *)

Section ShowMore.

Import UIComponent.

Context {Coordinate Dom : Type}.

Variable place_dom :
  ref → ref → store (@state Coordinate Dom) →
  store (@state Coordinate Dom).

(** Lines 116-153 of [show] assign [__uiDOM] and [_size] and work on the
    document; they assign neither [_owner] nor [_coordinate].  The callbacks
    of the concrete class that run there ([onDomRemove], [buildOn],
    [getOffset]) are taken to do the same, and to leave the geometries and
    the delegation targets alone. *)
Definition places_dom_only : Prop :=
  ∀ this map s,
    (∀ u, _owner (get_component (place_dom this map s) u) =
            _owner (get_component s u) ∧
          _coordinate (get_component (place_dom this map s) u) =
            _coordinate (get_component s u)) ∧
    geometry_map (ext (place_dom this map s)) = geometry_map (ext s) ∧
    ∀ e, _eventParent (get_emitter (place_dom this map s) e) =
         _eventParent (get_emitter s e).

End ShowMore.

(** ** Further concrete programs *)

Module Cases.

Import Demo.

(** Functions of the program that all return [false]. *)
Definition refusing
  : code → option ref → list value → store unit → value * store unit :=
  λ _ _ _ s, (VBool false, s).

(** Emitter 0 with [h1] then [h2] on type [x], and the caller's payload at
    address 5, which carries the DOM event at address 6. *)
Definition with_dom_event : store unit :=
  set_heap {[5 := {["domEvent" := VRef 6]}; 6 := ∅]}
    (on 0 "x" (Some h2) None (on 0 "x" (Some h1) None s0)).

(** Emitter 0 with [h1] registered through [once] for [click], and the same
    payload. *)
Definition once_listener : store unit :=
  set_heap {[5 := {["domEvent" := VRef 6]}; 6 := ∅]}
    (once 0 "click" h1 None s0).

(** The symbol of a text box at address 7. *)
Definition text_symbol : store unit :=
  set_heap
    {[7 := {["textHorizontalAlignment" := VStr "left";
             "textVerticalAlignment" := VStr "bottom";
             "textSize" := VNum 12]}]} s0.

(** The map 10 after tool 12 took the slot of tool 11: 11 is disabled and
    still has the map. *)
Definition after_eviction : store MapTool.state :=
  on 10 "click" (Some h2) (Some 12)
    (Store ∅ ∅ ∅ []
       (MapTool.State
          {[11 := MapTool.Tool (Some 10) false "DistanceTool"
                    (Some [("click", h1)]) None None None;
            12 := MapTool.Tool (Some 10) true "DistanceTool"
                    (Some [("click", h2)]) None None None]}
          {[(10, "_toolDistanceTool") := 12]})).


(** The new tool 12 and a map that has no tool. *)
Definition no_tool : store MapTool.state :=
  Store ∅ ∅ ∅ [] (MapTool.State {[12 := tool2]} ∅).

(** The component 20, added to nothing, with a listener of [showstart]; the
    geometry 30 is on the map 10. *)
Definition one_component : store (@UIComponent.state nat unit) :=
  on 20 "showstart" (Some h1) None
    (Store ∅ ∅ ∅ []
       (UIComponent.State
          {[20 := UIComponent.Component None None None None]}
          {[30 := 10]} tt)).

(** A document on which nothing is placed. *)
Definition no_dom
  : ref → ref → store (@UIComponent.state nat unit) →
    store (@UIComponent.state nat unit) :=
  λ _ _ s, s.

(** The DOM part of a component whose [buildOn] makes the element 40. *)
Definition placing
  : ref → ref → store (@UIComponent.state nat unit) →
    store (@UIComponent.state nat unit) :=
  λ this _ s,
    let cm := UIComponent.get_component s this in
    UIComponent.set_component this
      (UIComponent.Component (UIComponent._owner cm)
         (UIComponent._coordinate cm) (Some 40) (UIComponent.getEvents cm)) s.

(** The component 20 added to the map 10, never shown, with a listener of
    [showend]. *)
Definition added_component : store (@UIComponent.state nat unit) :=
  on 20 "showend" (Some h1) None
    (Store ∅ ∅ ∅ []
       (UIComponent.State
          {[20 := UIComponent.Component (Some (UIComponent.OwnerMap 10))
                    None None None]}
          ∅ tt)).


(** Emitter 0 is its own delegation target. *)
Definition self_parent : store unit := _setEventParent 0 (Some 0) s0.

(** Emitter 0 with [h1] on the type [click], registered as [Click]. *)
Definition capital : store unit := on 0 "Click" (Some h1) None s0.

End Cases.

(** * Properties *)

(** ** Strings *)

Section JsStringFacts.

Lemma split_single s : single_token s = true → split s = [s].
Proof.
  induction s as [|c r IH]; simpl; [done|].
  intros [Hc Hr]%andb_prop. apply negb_true_iff in Hc. rewrite Hc.
  by rewrite (IH Hr).
Qed.

Lemma lower_ascii_idem c : lower_ascii (lower_ascii c) = lower_ascii c.
Proof.
  destruct c as [[] [] [] [] [] [] [] []]; reflexivity.
Qed.

Lemma toLowerCase_idem s : toLowerCase (toLowerCase s) = toLowerCase s.
Proof.
  induction s as [|c r IH]; simpl; [done|].
  by rewrite lower_ascii_idem, IH.
Qed.

Lemma split_app_space t1 t2 :
  single_token t1 = true → split (t1 +:+ " " +:+ t2) = t1 :: split t2.
Proof.
  induction t1 as [|c r IH]; simpl; [done|].
  intros [Hc Hr]%andb_prop. apply negb_true_iff in Hc. rewrite Hc.
  by rewrite (IH Hr).
Qed.

End JsStringFacts.

Section EventableFacts.

Context {X : Type}.
Variable body :
  code → option ref → list value → store X → value * store X.

Implicit Types (s : store X) (tr : list (entry X)).

(** ** Lemmas on the store *)

Lemma get_emitter_set e em s e' :
  get_emitter (set_emitter e em s) e' =
  if decide (e = e') then em else get_emitter s e'.
Proof.
  unfold get_emitter, set_emitter; simpl.
  rewrite lookup_insert. by case_decide.
Qed.

Lemma get_chain_set_eq e t c s :
  get_chain (set_chain e t c s) e t = Some c.
Proof.
  unfold get_chain, set_chain. rewrite get_emitter_set.
  rewrite decide_True by done. simpl. by rewrite lookup_insert_eq.
Qed.

Lemma get_chain_set_ne e t c s e' t' :
  (e, t) ≠ (e', t') →
  get_chain (set_chain e t c s) e' t' = get_chain s e' t'.
Proof.
  intros Hne. unfold get_chain, set_chain. rewrite get_emitter_set.
  case_decide as He; [subst e'|done]. simpl.
  rewrite lookup_insert_ne by congruence.
  destruct (_eventMap (get_emitter s e)); simpl; [done|apply lookup_empty].
Qed.

Lemma parent_set_chain e t c s e' :
  _eventParent (get_emitter (set_chain e t c s) e') =
  _eventParent (get_emitter s e').
Proof.
  unfold set_chain. rewrite get_emitter_set. by case_decide; subst.
Qed.


(** ** The reverse scan of off is a filter *)

Lemma off_scan_prefix h ctx (l1 l2 : list subscriber) :
  Forall (λ sub, same_pair h ctx sub = false) l2 →
  off_scan h ctx (length l1) (l1 ++ l2) =
  filter (λ sub, same_pair h ctx sub = false) l1 ++ l2.
Proof.
  revert l2. induction l1 as [|x l1 IH] using rev_ind; intros l2 Hl2.
  - done.
  - rewrite length_app, Nat.add_1_r. simpl.
    rewrite <- app_assoc. simpl.
    rewrite (list_lookup_middle l1 l2 x (length l1) eq_refl).
    rewrite filter_app.
    destruct (same_pair h ctx x) eqn:Hx.
    + replace (delete (length l1) (l1 ++ x :: l2)) with (l1 ++ l2).
      2:{ rewrite delete_middle. done. }
      rewrite IH by done.
      rewrite filter_cons_False by (rewrite Hx; done).
      by rewrite filter_nil, app_nil_r.
    + rewrite IH by (constructor; done).
      rewrite filter_cons_True by done.
      by rewrite filter_nil, <- app_assoc.
Qed.

Lemma off_scan_filter h ctx (chain : list subscriber) :
  off_scan h ctx (length chain) chain =
  filter (λ sub, same_pair h ctx sub = false) chain.
Proof.
  rewrite <- (app_nil_r chain) at 2.
  rewrite off_scan_prefix by constructor. by rewrite app_nil_r.
Qed.

(** ** The calls of a dispatch pass *)

Lemma direct_entries_deeper tr : direct_entries (map deeper tr) = [].
Proof.
  unfold direct_entries. induction tr as [|e tr IH]; [done|].
  simpl. rewrite filter_cons_False by (simpl; lia). exact IH.
Qed.

Lemma direct_entries_app tr1 tr2 :
  direct_entries (tr1 ++ tr2) = direct_entries tr1 ++ direct_entries tr2.
Proof. unfold direct_entries. by rewrite filter_app. Qed.

Lemma direct_app tr1 tr2 : direct (tr1 ++ tr2) = direct tr1 ++ direct tr2.
Proof. unfold direct. by rewrite direct_entries_app, map_app. Qed.

(** A call shows as one entry of the dispatcher, whatever it calls in turn. *)
Lemma call_fn_entry f this args s :
  direct_entries (call_fn body f this args s).2 = [Entry 0 f this args s].
Proof.
  destruct f as [c|cell me evtType h ctx]; simpl.
  - by destruct (body c this args s).
  - destruct (default false (called s !! cell)); [done|].
    destruct (call_fn body h _ args _) as [[r s2] tr]. simpl.
    unfold direct_entries. rewrite filter_cons_True by done.
    f_equal. apply direct_entries_deeper.
Qed.

Lemma call_fn_direct f this args s :
  direct (call_fn body f this args s).2 = [Subscriber f this].
Proof. unfold direct. by rewrite call_fn_entry. Qed.

Lemma fire_queue_direct param queue s :
  direct (fire_queue body param queue s).2 = queue.
Proof.
  revert s. induction queue as [|sub rest IH]; intros s; simpl; [done|].
  pose proof (call_fn_direct (handler sub) (context sub)
                [VRef (fresh_ref s)]
                (set_heap (<[fresh_ref s := get_obj s param]> (heap s)) s))
    as Hd.
  destruct (call_fn body _ _ _ _) as [[bubble s2] tr]. simpl in Hd.
  match goal with |- context [fire_queue body param rest ?s3] =>
    specialize (IH s3);
    destruct (fire_queue body param rest s3) as [s4 tr'] end.
  simpl in *. rewrite direct_app, Hd, IH. by destruct sub.
Qed.

(** ** Registration and removal *)

Lemma filter_all {A} (P : A → Prop) `{∀ x, Decision (P x)} (l : list A) :
  Forall P l → filter P l = l.
Proof.
  induction 1 as [|x l Hx Hl IH]; [done|].
  by rewrite filter_cons_True, IH.
Qed.

Lemma chains_only_refl s : chains_only s s.
Proof. by repeat split. Qed.

Lemma chains_only_trans s1 s2 s3 :
  chains_only s1 s2 → chains_only s2 s3 → chains_only s1 s3.
Proof.
  intros (?&?&?&?&Hp1) (?&?&?&?&Hp2).
  repeat split; try congruence; try (intros e; by rewrite Hp2, Hp1).
Qed.

Lemma chains_only_set_chain e t c s : chains_only s (set_chain e t c s).
Proof. repeat split. intros e'. apply parent_set_chain. Qed.

Lemma chains_only_set_map e m s :
  chains_only s
    (set_emitter e (Emitter m (_eventParent (get_emitter s e))) s).
Proof.
  repeat split. intros e'. rewrite get_emitter_set.
  by case_decide; subst.
Qed.

Lemma get_chain_emitters s s' e t :
  emitters s' = emitters s → get_chain s' e t = get_chain s e t.
Proof. intros H. unfold get_chain, get_emitter. by rewrite H. Qed.

Lemma get_chain_set_called c s e t :
  get_chain (set_called c s) e t = get_chain s e t.
Proof. done. Qed.

Lemma on_types_chains_only this h ctx tys s :
  chains_only s (on_types this h ctx tys s).
Proof.
  revert s. induction tys as [|t rest IH]; intros s; simpl.
  - apply chains_only_refl.
  - set (s1 := match get_chain s this (toLowerCase t) with
               | Some _ => s
               | None => set_chain this (toLowerCase t) [] s
               end).
    assert (chains_only s s1) as H1.
    { subst s1. destruct (get_chain s this (toLowerCase t));
        [apply chains_only_refl|apply chains_only_set_chain]. }
    destruct (existsb _ _); [done|].
    eapply chains_only_trans; [exact H1|].
    eapply chains_only_trans; [apply chains_only_set_chain|apply IH].
Qed.

Lemma on_chains_only this tys h ctx s : chains_only s (on this tys h ctx s).
Proof.
  unfold on. destruct h as [h|]; [|apply chains_only_refl].
  case_bool_decide; [apply chains_only_refl|].
  eapply chains_only_trans; [|apply on_types_chains_only].
  destruct (_eventMap (get_emitter s this));
    [apply chains_only_refl|apply chains_only_set_map].
Qed.

Lemma off_types_chains_only this h ctx tys s :
  chains_only s (off_types this h ctx tys s).
Proof.
  revert s. induction tys as [|t rest IH]; intros s; simpl.
  - apply chains_only_refl.
  - destruct (get_chain s this (toLowerCase t)); [|apply chains_only_refl].
    eapply chains_only_trans; [apply chains_only_set_chain|apply IH].
Qed.

Lemma off_chains_only this tys h ctx s : chains_only s (off this tys h ctx s).
Proof.
  unfold off. destruct h as [h|]; [|apply chains_only_refl].
  case_bool_decide; [apply chains_only_refl|].
  destruct (_eventMap (get_emitter s this)); [|apply chains_only_refl].
  apply off_types_chains_only.
Qed.

(** [on] with one token: the pair is appended unless the chain has it. *)
Lemma on_single this t f ctx s :
  t ≠ EmptyString → single_token t = true →
  get_chain (on this t (Some f) ctx s) this (toLowerCase t) =
  Some (let chain := default [] (get_chain s this (toLowerCase t)) in
        if existsb (same_pair f (default this ctx)) chain then chain
        else chain ++ [Subscriber f (Some (default this ctx))]).
Proof.
  intros Ht Hs. unfold on. rewrite bool_decide_eq_false_2 by done.
  rewrite (split_single t Hs). simpl.
  set (s0 := match _eventMap (get_emitter s this) with
             | Some _ => s
             | None =>
                 set_emitter this
                   (Emitter (Some ∅) (_eventParent (get_emitter s this))) s
             end).
  assert (default [] (get_chain s0 this (toLowerCase t)) =
          default [] (get_chain s this (toLowerCase t))) as H0.
  { subst s0. unfold get_chain.
    destruct (_eventMap (get_emitter s this)) eqn:E; [by rewrite E|].
    rewrite get_emitter_set, decide_True by done. simpl.
    by rewrite lookup_empty. }
  rewrite <- H0. clearbody s0.
  destruct (get_chain s0 this (toLowerCase t)) as [chain|] eqn:E; simpl.
  - rewrite E. simpl.
    destruct (existsb _ chain); [done|apply get_chain_set_eq].
  - rewrite get_chain_set_eq. simpl. apply get_chain_set_eq.
Qed.

(** Dedup: registering the pair a chain already holds changes no chain. *)
Lemma on_types_other this h ctx tys s e t :
  (∀ ty, ty ∈ tys → (this, toLowerCase ty) ≠ (e, t)) →
  get_chain (on_types this h ctx tys s) e t = get_chain s e t.
Proof.
  revert s. induction tys as [|ty rest IH]; intros s Hne; simpl; [done|].
  assert ((this, toLowerCase ty) ≠ (e, t)) as Hty
    by (apply Hne; apply list_elem_of_here).
  set (s1 := match get_chain s this (toLowerCase ty) with
             | Some _ => s
             | None => set_chain this (toLowerCase ty) [] s
             end).
  assert (get_chain s1 e t = get_chain s e t) as H1.
  { subst s1. destruct (get_chain s this (toLowerCase ty)); [done|].
    by apply get_chain_set_ne. }
  destruct (existsb _ _); [done|].
  rewrite IH.
  - by rewrite get_chain_set_ne.
  - intros ty' Hin. apply Hne. by apply list_elem_of_further.
Qed.

Lemma off_single this t f ctx s chain :
  t ≠ EmptyString → single_token t = true →
  get_chain s this (toLowerCase t) = Some chain →
  get_chain (off this t (Some f) ctx s) this (toLowerCase t) =
  Some (filter (λ sub, same_pair f (default this ctx) sub = false) chain).
Proof.
  intros Ht Hs Hc. unfold off. rewrite bool_decide_eq_false_2 by done.
  assert (is_Some (_eventMap (get_emitter s this))) as [m Hm].
  { unfold get_chain in Hc.
    destruct (_eventMap (get_emitter s this)); [eauto|done]. }
  rewrite Hm, (split_single t Hs). simpl. rewrite Hc.
  rewrite get_chain_set_eq. by rewrite off_scan_filter.
Qed.

(** [off] never removes a subscriber whose handler is another function. *)
Lemma off_types_keeps this f ctx tys s e t sub :
  handler sub ≠ f → registered s e t sub →
  registered (off_types this f ctx tys s) e t sub.
Proof.
  intros Hne. revert s. induction tys as [|ty rest IH]; intros s Hr;
    simpl; [done|].
  destruct (get_chain s this (toLowerCase ty)) as [chain|] eqn:E; [|done].
  apply IH. destruct Hr as (c & Hc & Hin).
  destruct (decide ((this, toLowerCase ty) = (e, t))) as [Heq|Hd].
  - injection Heq as <- <-. rewrite E in Hc. injection Hc as ->.
    exists (off_scan f ctx (length c) c). split; [apply get_chain_set_eq|].
    rewrite off_scan_filter. apply list_elem_of_filter. split; [|done].
    unfold same_pair. apply andb_false_iff. left.
    by apply bool_decide_eq_false_2.
  - exists c. split; [|done]. by rewrite get_chain_set_ne.
Qed.

Lemma off_keeps this tys f ctx s e t sub :
  handler sub ≠ f → registered s e t sub →
  registered (off this tys (Some f) ctx s) e t sub.
Proof.
  intros Hne Hr. unfold off. case_bool_decide; [done|].
  destruct (_eventMap (get_emitter s this)); [|done].
  by apply off_types_keeps.
Qed.



Lemma on_registers this t f ctx s :
  t ≠ EmptyString → single_token t = true →
  registered (on this t (Some f) ctx s) this (toLowerCase t)
    (Subscriber f (Some (default this ctx))).
Proof.
  intros Ht Hs. eexists. split; [by apply on_single|]. simpl.
  destruct (existsb _ _) eqn:E.
  - apply existsb_exists in E as (sub & Hin & Hp).
    apply andb_prop in Hp as [H1 H2].
    apply bool_decide_eq_true in H1, H2. destruct sub as [f' c'].
    simpl in *. subst. by apply list_elem_of_In.
  - apply elem_of_app. right. apply list_elem_of_here.
Qed.



(** [once] with one token is one wrapper and one [on]. *)
Lemma once_single this t h ctx s :
  single_token t = true →
  once this t h ctx s =
  on this t (Some (OnceHandler (fresh (dom (called s))) this t h ctx)) None
    (set_called (<[fresh (dom (called s)) := false]> (called s)) s).
Proof. intros Hs. unfold once. by rewrite (split_single t Hs). Qed.



(** ** Firing a once-handler *)

Lemma fire_no_parent n this ty p s :
  _eventParent (get_emitter s this) = None →
  fire body (S n) this ty p s =
  Some (this, (_fire body this ty p s).1, (_fire body this ty p s).2).
Proof.
  intros H. simpl. rewrite H. by destruct (_fire body this ty p s).
Qed.

Lemma count_calls_app f tr1 tr2 :
  count_calls f (tr1 ++ tr2) = count_calls f tr1 + count_calls f tr2.
Proof. unfold count_calls. by rewrite filter_app, length_app. Qed.

Lemma absent_no_pair f ctx (chain : list subscriber) :
  Forall (λ sub, handler sub ≠ f) chain →
  existsb (same_pair f ctx) chain = false ∧
  filter (λ sub, same_pair f ctx sub = false) chain = chain.
Proof.
  intros Hq.
  assert (Forall (λ sub, same_pair f ctx sub = false) chain) as Hf.
  { eapply Forall_impl; [exact Hq|]. intros sub Hne. unfold same_pair.
    apply andb_false_iff. left. apply bool_decide_eq_false_2. congruence. }
  split; [|by apply filter_all].
  clear Hq. induction Hf as [|sub chain Hsub _ IH]; [done|].
  simpl. by rewrite Hsub, IH.
Qed.

Lemma others_not c (chain : list subscriber) f :
  others c chain → (f = Native c ∨ ∃ cell me t h ctx,
                      f = OnceHandler cell me t h ctx) →
  Forall (λ sub, handler sub ≠ f) chain.
Proof.
  intros Ho Hf. eapply Forall_impl; [exact Ho|].
  intros sub (c' & Hc' & Hne) Heq.
  destruct Hf as [Hf|(?&?&?&?&?&Hf)]; congruence.
Qed.

Lemma fire_queue_app p q1 q2 s :
  fire_queue body p (q1 ++ q2) s =
  (let '(s1, tr1) := fire_queue body p q1 s in
   let '(s2, tr2) := fire_queue body p q2 s1 in (s2, tr1 ++ tr2)).
Proof.
  revert s. induction q1 as [|sub q1 IH]; intros s; simpl.
  - by destruct (fire_queue body p q2 s).
  - destruct (call_fn body _ _ _ _) as [[bubble s2] tr].
    rewrite IH.
    destruct (fire_queue body p q1 _) as [s4 tr4].
    destruct (fire_queue body p q2 s4) as [s5 tr5].
    by rewrite app_assoc.
Qed.

(** A pass over functions of the program that leave the registrations
    alone keeps them, and calls none but these functions. *)
Lemma fire_queue_others c p q s :
  (∀ c', leaves_events body c') → others c q →
  emitters (fire_queue body p q s).1 = emitters s ∧
  called (fire_queue body p q s).1 = called s ∧
  count_calls (Native c) (fire_queue body p q s).2 = 0.
Proof.
  intros Hb Ho. revert s.
  induction Ho as [|sub q (c' & Hc' & Hne) _ IH]; intros s; simpl; [done|].
  rewrite Hc'. simpl.
  match goal with |- context [body c' ?th ?args ?s0] =>
    destruct (Hb c' th args s0) as [Hbe Hbc];
    destruct (body c' th args s0) as [r s2] end.
  simpl in *.
  match goal with |- context [fire_queue body p q ?s0] =>
    destruct (IH s0) as (He & Hc & Hn);
    assert (emitters s0 = emitters s2 ∧ called s0 = called s2) as [He3 Hc3];
    [|destruct (fire_queue body p q s0) as [s4 tr']] end.
  { destruct (bool_decide _); [|done]. by destruct (truthy _). }
  simpl in *. split; [congruence|]. split; [congruence|].
  unfold count_calls in *. simpl.
  rewrite filter_cons_False; [done|]. simpl. congruence.
Qed.

(** The store [_fire] hands to its loop has the registrations and guards of
    the store it was called with. *)
Lemma stamped_events this ty (p : option ref) s p0 s1 :
  match p with Some p0 => (p0, s) | None => new_object s end = (p0, s1) →
  let s3 := set_prop p0 "target" (VRef this)
              (set_prop p0 "type" (VStr ty) s1) in
  emitters s3 = emitters s ∧ called s3 = called s.
Proof. intros Ep. by destruct p; injection Ep as <- <-. Qed.

Lemma fire_others c this t p q s :
  (∀ c', leaves_events body c') →
  get_chain s this (toLowerCase t) = Some q → others c q →
  emitters (_fire body this t p s).1 = emitters s ∧
  called (_fire body this t p s).1 = called s ∧
  count_calls (Native c) (_fire body this t p s).2 = 0.
Proof.
  intros Hb Hchain Ho. unfold _fire. rewrite Hchain.
  destruct (match p with Some p0 => (p0, s) | None => new_object s end)
    as [p0 s1] eqn:Ep.
  destruct (stamped_events this t p s p0 s1 Ep) as [He Hc].
  match goal with |- context [fire_queue body p0 q ?s3] =>
    destruct (fire_queue_others c p0 q s3 Hb Ho) as (He' & Hc' & Hn) end.
  split; [congruence|]. split; [congruence|done].
Qed.

(** The first firing of a wrapper that follows such functions in its chain
    calls the wrapped function once and takes the wrapper off the chain. *)
Lemma fire_once_wrapper this t c ctx cell p q s :
  t ≠ EmptyString → single_token t = true →
  (∀ c', leaves_events body c') →
  get_chain s this (toLowerCase t) =
    Some (q ++ [Subscriber (OnceHandler cell this t (Native c) ctx)
                  (Some this)]) →
  others c q →
  default false (called s !! cell) = false →
  get_chain (_fire body this t p s).1 this (toLowerCase t) = Some q ∧
  count_calls (Native c) (_fire body this t p s).2 = 1 ∧
  (∀ e, _eventParent (get_emitter (_fire body this t p s).1 e) =
        _eventParent (get_emitter s e)).
Proof.
  intros Ht Hs Hb Hchain Ho Hcalled. unfold _fire. rewrite Hchain.
  destruct (match p with Some p0 => (p0, s) | None => new_object s end)
    as [p0 s1] eqn:Ep.
  destruct (stamped_events this t p s p0 s1 Ep) as [He3 Hc3].
  rewrite fire_queue_app.
  match goal with |- context [fire_queue body p0 q ?s3] =>
    destruct (fire_queue_others c p0 q s3 Hb Ho) as (He4 & Hc4 & Hn4);
    destruct (fire_queue body p0 q s3) as [s4 tr4] end.
  simpl in He3, Hc3, He4, Hc4, Hn4.
  simpl. rewrite Hc4, Hc3, Hcalled.
  match goal with |- context [body c ?th ?args ?s0] =>
    destruct (Hb c th args s0) as [Hbe Hbc];
    destruct (body c th args s0) as [r s5] end.
  simpl in *.
  set (w := OnceHandler cell this t (Native c) ctx) in *.
  assert (get_chain s5 this (toLowerCase t) =
          Some (q ++ [Subscriber w (Some this)])) as Hchain5.
  { rewrite <- Hchain. apply get_chain_emitters. congruence. }
  split; [|split].
  - rewrite (off_single _ _ _ _ _ _ Ht Hs Hchain5). simpl.
    rewrite filter_app.
    destruct (absent_no_pair w this q) as [_ ->].
    { apply (others_not c); [done|]. right. by eexists _, _, _, _, _. }
    rewrite filter_cons_False; [by rewrite filter_nil, app_nil_r|].
    unfold same_pair. simpl. by rewrite !bool_decide_eq_true_2.
  - rewrite count_calls_app, Hn4.
    unfold count_calls. simpl.
    rewrite filter_cons_False by done.
    by rewrite filter_cons_True.
  - intros e.
    destruct (off_chains_only this t (Some w) (Some this) s5)
      as (_&_&_&_&Hp).
    rewrite Hp. unfold get_emitter. congruence.
Qed.

(** Firing a chain of such functions followed by the function itself calls
    it once. *)
Lemma fire_then_native this t c cx p q s :
  (∀ c', leaves_events body c') →
  get_chain s this (toLowerCase t) = Some (q ++ [Subscriber (Native c) cx]) →
  others c q →
  count_calls (Native c) (_fire body this t p s).2 = 1.
Proof.
  intros Hb Hchain Ho. unfold _fire. rewrite Hchain.
  destruct (match p with Some p0 => (p0, s) | None => new_object s end)
    as [p0 s1]. rewrite fire_queue_app.
  match goal with |- context [fire_queue body p0 q ?s3] =>
    destruct (fire_queue_others c p0 q s3 Hb Ho) as (_ & _ & Hn4);
    destruct (fire_queue body p0 q s3) as [s4 tr4] end.
  simpl in *. destruct (body c _ _ _) as [r s5]. simpl.
  rewrite count_calls_app, Hn4.
  unfold count_calls. simpl. by rewrite filter_cons_True.
Qed.

(** After [once] on a type with such functions as listeners the wrapper is
    last in the chain, and its guard is down. *)
Lemma once_new_chain this t c h ctx s :
  t ≠ EmptyString → single_token t = true →
  others c (default [] (get_chain s this (toLowerCase t))) →
  get_chain (once this t h ctx s) this (toLowerCase t) =
    Some (default [] (get_chain s this (toLowerCase t)) ++
          [Subscriber (OnceHandler (fresh (dom (called s))) this t h ctx)
             (Some this)]) ∧
  default false (called (once this t h ctx s) !! fresh (dom (called s))) =
    false ∧
  (∀ e, _eventParent (get_emitter (once this t h ctx s) e) =
        _eventParent (get_emitter s e)).
Proof.
  intros Ht Hs Hq. rewrite (once_single _ _ _ _ _ Hs).
  match goal with |- context [on this t ?f None ?s0] =>
    destruct (on_chains_only this t f None s0) as (_&Hc&_&_&Hp);
    pose proof (on_single this t (OnceHandler (fresh (dom (called s))) this
                                    t h ctx) None s0 Ht Hs) as Hon end.
  split; [|split].
  - rewrite Hon. simpl. rewrite get_chain_set_called.
    match goal with |- context [existsb (same_pair ?w this) ?q] =>
      destruct (absent_no_pair w this q) as [-> _]; [|done] end.
    apply (others_not c); [done|]. right. by eexists _, _, _, _, _.
  - rewrite Hc. simpl. by rewrite lookup_insert_eq.
  - intros e. by rewrite Hp.
Qed.

(** ** Dispatch against the copied chain *)

Lemma _fire_direct this eventType param s :
  direct (_fire body this eventType param s).2 =
  default [] (get_chain s this (toLowerCase eventType)).
Proof.
  unfold _fire.
  destruct (get_chain s this (toLowerCase eventType)) as [chain|];
    simpl; [|done].
  destruct param as [p|]; simpl; apply fire_queue_direct.
Qed.


(** ** The payload of a pass *)

Lemma fresh_ref_new s : fresh_ref s ∉ dom (heap s).
Proof.
  unfold fresh_ref.
  pose proof (is_fresh (dom (heap s) ∪ dom (emitters s))). set_solver.
Qed.

Lemma get_obj_absent s r : r ∉ dom (heap s) → get_obj s r = ∅.
Proof.
  intros H. unfold get_obj. apply not_elem_of_dom in H. by rewrite H.
Qed.

(** A call keeps the objects there are, and the payload as it is. *)
Lemma call_fn_heap p f this args s :
  keeps_objects body → spares body p →
  dom (heap s) ⊆ dom (heap (snd (fst (call_fn body f this args s)))) ∧
  (VRef p ∉ args →
   get_obj (snd (fst (call_fn body f this args s))) p = get_obj s p).
Proof.
  intros Hk Hsp. revert this s.
  induction f as [c|cell me evtType h IH ctx]; intros this s; simpl.
  - pose proof (Hk c this args s) as H1.
    pose proof (Hsp c this args s) as H2.
    by destruct (body c this args s).
  - destruct (default false (called s !! cell)); [done|].
    match goal with |- context [call_fn body h ?th args ?s1] =>
      destruct (IH th s1) as [H1 H2];
      destruct (call_fn body h th args s1) as [[r s2] tr] end.
    simpl in *.
    match goal with |- context [off me evtType ?f ?c s2] =>
      destruct (off_chains_only me evtType f c s2) as (Hh&_) end.
    unfold get_obj in *. rewrite Hh. done.
Qed.

(** Every call of the dispatch loop gets an object made for it, which holds
    what the payload holds. *)
Lemma fire_queue_payload p queue s :
  keeps_objects body → spares body p → p ∈ dom (heap s) →
  dom (heap s) ⊆ dom (heap (fst (fire_queue body p queue s))) ∧
  get_obj (fire_queue body p queue s).1 p = get_obj s p ∧
  Forall (λ e, ∃ r, e_args e = [VRef r] ∧ (r ∉ dom (heap s)) ∧
                    get_obj (e_store e) r = get_obj s p)
         (direct_entries (fire_queue body p queue s).2) ∧
  NoDup (map e_args (direct_entries (fire_queue body p queue s).2)).
Proof.
  intros Hk Hsp. revert s.
  induction queue as [|sub rest IH]; intros s Hp; simpl.
  - split; [done|]. split; [done|]. split; constructor.
  - pose proof (fresh_ref_new s) as Hr.
    set (r := fresh_ref s) in *.
    set (s1 := set_heap (<[r := get_obj s p]> (heap s)) s).
    assert (r ≠ p) as Hrp by (intros ->; done).
    assert (get_obj s1 p = get_obj s p) as Hp1.
    { unfold get_obj, s1. simpl. by rewrite lookup_insert_ne. }
    assert (dom (heap s) ⊆ dom (heap s1) ∧ r ∈ dom (heap s1))
      as [Hd1 Hr1].
    { unfold s1. simpl. rewrite dom_insert_L. set_solver. }
    destruct (call_fn_heap p (handler sub) (context sub) [VRef r] s1 Hk Hsp)
      as [Hd2 Hp2].
    pose proof (call_fn_entry (handler sub) (context sub) [VRef r] s1) as He.
    destruct (call_fn body (handler sub) (context sub) [VRef r] s1)
      as [[bubble s2] tr]. simpl in Hd2, Hp2, He.
    match goal with |- context [fire_queue body p rest ?s0] =>
      set (s3 := s0) end.
    assert (heap s3 = heap s2) as Hh3.
    { unfold s3. destruct (bool_decide _); [|done].
      by destruct (truthy _). }
    assert (get_obj s3 p = get_obj s p) as Hp3.
    { unfold get_obj. rewrite Hh3. fold (get_obj s2 p).
      rewrite Hp2, Hp1; [done|]. intros Hin.
      apply list_elem_of_singleton in Hin. congruence. }
    assert (dom (heap s1) ⊆ dom (heap s3)) as Hd3 by (by rewrite Hh3).
    destruct (IH s3) as (Hd4 & Hp4 & Hall & Hnd); [set_solver|].
    destruct (fire_queue body p rest s3) as [s4 tr']. simpl in *.
    rewrite direct_entries_app, He. simpl.
    split; [set_solver|]. split; [congruence|]. split.
    + constructor.
      * exists r. simpl. repeat split; [done|].
        unfold get_obj, s1. simpl. by rewrite lookup_insert_eq.
      * eapply Forall_impl; [exact Hall|]. simpl.
        intros e (r' & Ha & Hn & Ho). exists r'.
        repeat split; [done|set_solver|congruence].
    + constructor; [|done]. intros Hin.
      apply list_elem_of_fmap in Hin as (e & Heq & Hin).
      rewrite Forall_forall in Hall.
      destruct (Hall e Hin) as (r' & Ha & Hn & _).
      rewrite Ha in Heq. injection Heq as ->. set_solver.
Qed.

(** C3, as amended: a pass does not clone the payload before stamping it.
    [type] and [target] are written on the payload object itself (the one the
    caller passed, or the new [{}]), and it keeps them after the pass.  Each
    handler of the chain is then called with an object of its own, distinct
    from the payload and from the argument of every other handler, that holds
    the properties of the stamped payload when the handler is entered.  The
    functions of the program are taken to delete no object and to write to
    the payload only when it is passed to them. *)
Theorem fire_stamps_then_copies this ty param p s :
  keeps_objects body → spares body p → p = payload param s →
  is_Some (get_chain s this (toLowerCase ty)) →
  let res := _fire body this ty param s in
  let stamped :=
    <["target" := VRef this]> (<["type" := VStr ty]> (get_obj s p)) in
  get_obj res.1 p = stamped ∧
  Forall (λ e, ∃ r, e_args e = [VRef r] ∧ r ≠ p ∧
                    get_obj (e_store e) r = stamped)
         (direct_entries res.2) ∧
  NoDup (map e_args (direct_entries res.2)).
Proof.
  intros Hk Hsp -> [chain Hchain]. unfold _fire. rewrite Hchain. simpl.
  destruct (match param with Some p0 => (p0, s) | None => new_object s end)
    as [p s1] eqn:Ep.
  assert (p = payload param s ∧ get_obj s1 p = get_obj s p) as [Hpp Hs1].
  { destruct param as [p0|]; simpl in *.
    - by injection Ep as <- <-.
    - injection Ep as <- <-. split; [done|].
      rewrite (get_obj_absent s) by apply fresh_ref_new.
      unfold get_obj. simpl. by rewrite lookup_insert_eq. }
  rewrite <- Hpp in Hsp |- *. clear Hpp Ep.
  set (s3 := set_prop p "target" (VRef this) (set_prop p "type" (VStr ty) s1)).
  assert (get_obj s3 p =
          <["target" := VRef this]> (<["type" := VStr ty]> (get_obj s p)))
    as Hs3.
  { unfold s3, set_prop, get_obj at 1. simpl. rewrite lookup_insert_eq.
    simpl. f_equal. unfold get_obj at 1. simpl.
    rewrite lookup_insert_eq. simpl. by rewrite Hs1. }
  assert (p ∈ dom (heap s3)) as Hin.
  { unfold s3, set_prop. simpl. rewrite dom_insert_L. set_solver. }
  destruct (fire_queue_payload p chain s3 Hk Hsp Hin)
    as (_ & Hp & Hall & Hnd).
  split; [by rewrite Hp|]. split; [|done].
  eapply Forall_impl; [exact Hall|]. simpl.
  intros e (r & Ha & Hn & Ho). exists r.
  repeat split; [done| |by rewrite Ho]. intros ->. done.
Qed.

(** ** What a pass leaves alone *)

Lemma framed_refl s : framed s s.
Proof. by split. Qed.

Lemma framed_trans s1 s2 s3 : framed s1 s2 → framed s2 s3 → framed s1 s3.
Proof.
  intros [He1 Hp1] [He2 Hp2]. split; [congruence|].
  intros e. by rewrite Hp2, Hp1.
Qed.

Lemma chains_only_framed s s' : chains_only s s' → framed s s'.
Proof. by intros (_&_&_&?&?). Qed.

Lemma framed_emitters s s' :
  emitters s' = emitters s → ext s' = ext s → framed s s'.
Proof.
  intros He Hx. split; [done|]. intros e. unfold get_emitter. by rewrite He.
Qed.

Lemma call_fn_framed f this args s :
  leaves_frame body → framed s (snd (fst (call_fn body f this args s))).
Proof.
  intros Hb. revert this s.
  induction f as [c|cell me evtType h IH ctx]; intros this s; simpl.
  - pose proof (Hb c this args s). by destruct (body c this args s).
  - destruct (default false (called s !! cell)); [apply framed_refl|].
    match goal with |- context [call_fn body h ?th args ?s1] =>
      pose proof (IH th s1) as H1;
      destruct (call_fn body h th args s1) as [[r s2] tr] end.
    simpl in *. eapply framed_trans; [exact H1|].
    apply chains_only_framed, off_chains_only.
Qed.

Lemma fire_queue_framed p queue s :
  leaves_frame body → framed s (fst (fire_queue body p queue s)).
Proof.
  intros Hb. revert s. induction queue as [|sub rest IH]; intros s; simpl.
  - apply framed_refl.
  - match goal with |- context [call_fn body ?f ?th ?args ?s1] =>
      pose proof (call_fn_framed f th args s1 Hb) as H1;
      destruct (call_fn body f th args s1) as [[bubble s2] tr] end.
    match goal with |- context [fire_queue body p rest ?s0] =>
      assert (framed s2 s0) as H2;
      [|pose proof (IH s0) as H3;
        destruct (fire_queue body p rest s0) as [s4 tr']] end.
    { destruct (bool_decide _); [|apply framed_refl].
      destruct (truthy _); by split. }
    simpl in *. eapply framed_trans; [|exact H3].
    eapply framed_trans; [|exact H2]. exact H1.
Qed.

Lemma _fire_framed this ty p s :
  leaves_frame body → framed s (fst (_fire body this ty p s)).
Proof.
  intros Hb. unfold _fire.
  destruct (get_chain s this (toLowerCase ty)); [|apply framed_refl].
  destruct (match p with Some p0 => (p0, s) | None => new_object s end)
    as [p0 s1] eqn:Ep.
  assert (framed s s1) as H1.
  { destruct p; injection Ep as <- <-; by split. }
  eapply framed_trans; [exact H1|].
  eapply framed_trans; [|apply fire_queue_framed, Hb].
  by split.
Qed.

Lemma _switch_chains_only to this keys ctx s :
  chains_only s (_switch to this keys ctx s).
Proof.
  unfold _switch. revert s.
  induction keys as [|k keys IH]; intros s; simpl; [apply chains_only_refl|].
  eapply chains_only_trans; [|apply IH].
  destruct to; [apply on_chains_only|apply off_chains_only].
Qed.

Lemma on_keys_chains_only this keys h s :
  chains_only s (on_keys this keys h s).
Proof.
  unfold on_keys. destruct h; [|apply chains_only_refl].
  apply _switch_chains_only.
Qed.

Lemma off_keys_chains_only this keys h s :
  chains_only s (off_keys this keys h s).
Proof.
  unfold off_keys. destruct h; [|apply chains_only_refl].
  destruct (_eventMap _); [|apply chains_only_refl].
  apply _switch_chains_only.
Qed.

(** ** Delegation *)

Lemma walk_end s a r k :
  walk s a r k → _eventParent (get_emitter s r) = None.
Proof. induction 1; auto. Qed.

Lemma fire_walk fuel a r k ty p s :
  walk s a r k → k < fuel →
  fire body fuel a ty p s =
  Some (r, (_fire body r ty p s).1, (_fire body r ty p s).2).
Proof.
  intros Hw. revert fuel.
  induction Hw as [a Ha|a b r k Ha Hw IH]; intros [|fuel] Hlt; try lia; simpl.
  - rewrite Ha. by destruct (_fire body a ty p s).
  - rewrite Ha. apply IH. lia.
Qed.

(** C6, as amended: when the delegation target [B] of [A] has no target of
    its own, [A.fire(x, p)] is [B.fire(x, p)] with the same arguments; it
    returns [B], and the calls it makes are exactly the subscribers of [x] on
    [B], whatever [A] has registered. *)
Theorem fire_delegates_to_parent fuel A B x p s :
  _eventParent (get_emitter s A) = Some B →
  _eventParent (get_emitter s B) = None →
  fire body (S (S fuel)) A x p s = fire body (S fuel) B x p s ∧
  fire body (S (S fuel)) A x p s =
    Some (B, (_fire body B x p s).1, (_fire body B x p s).2) ∧
  direct (_fire body B x p s).2 =
    default [] (get_chain s B (toLowerCase x)).
Proof.
  intros HA HB. split; [|split].
  - simpl. by rewrite HA.
  - apply (fire_walk _ A B 1); [|lia].
    eapply walk_up; [done|]. by apply walk_here.
  - apply _fire_direct.
Qed.

(** C10: [fire] returns the emitter whose [_fire] ran.  Following the
    delegation targets from [a] to the emitter [r] that has none, with fuel
    for the walk, [a.fire] returns [r] and the effect of [r._fire]; without a
    target [r] is [a] itself, and with a target [b] the result is that of
    [b.fire] and [r] is never [a]. *)
Theorem fire_returns_dispatcher fuel a r k ty p s :
  walk s a r k → k < fuel →
  fire body fuel a ty p s =
    Some (r, (_fire body r ty p s).1, (_fire body r ty p s).2) ∧
  match _eventParent (get_emitter s a) with
  | None => r = a
  | Some b =>
      r ≠ a ∧ fire body fuel a ty p s = fire body (pred fuel) b ty p s
  end.
Proof.
  intros Hw Hlt. split; [by eapply fire_walk|].
  pose proof (walk_end _ _ _ _ Hw) as Hr.
  destruct Hw as [a Ha|a b r k Ha Hw].
  - by rewrite Ha.
  - rewrite Ha. split.
    + intros ->. congruence.
    + destruct fuel as [|fuel]; [lia|]. simpl. by rewrite Ha.
Qed.

End EventableFacts.

(** ** Tools *)

Section MapToolFacts.

Import MapTool.

Variable body :
  code → option ref → list value → store state → value * store state.

Hypothesis body_frame : leaves_frame body.

Implicit Types (s : store state) (t m : ref).

Lemma get_tool_ext s s' t : ext s' = ext s → get_tool s' t = get_tool s t.
Proof. intros H. unfold get_tool. by rewrite H. Qed.

Lemma get_tool_set_tool t tl s t' :
  get_tool (set_tool t tl s) t' =
  if decide (t = t') then tl else get_tool s t'.
Proof.
  unfold get_tool, set_tool. simpl. rewrite lookup_insert.
  by case_decide.
Qed.

Lemma framed_set_tool t tl s s' :
  framed s s' → framed (set_tool t tl s) (set_tool t tl s').
Proof.
  intros [He Hp]. split; [|exact Hp].
  unfold set_tool. simpl. by rewrite He.
Qed.

Lemma _switchEvents_framed to t s : framed s (_switchEvents to t s).
Proof.
  unfold _switchEvents. destruct (getEvents _); [|apply framed_refl].
  destruct (_map _); [|apply framed_refl].
  apply chains_only_framed.
  destruct to; [apply on_keys_chains_only|apply off_keys_chains_only].
Qed.

Lemma call_hook_framed hook t s : framed s (fst (call_hook body hook t s)).
Proof.
  unfold call_hook. destruct hook as [f|]; [|apply framed_refl].
  pose proof (call_fn_framed body f (Some t) [] s body_frame) as H.
  by destruct (call_fn body f (Some t) [] s) as [[r s1] tr].
Qed.

Lemma _fireEvent_returns n t eventName s :
  _eventParent (get_emitter s t) = None →
  ∃ s' tr, _fireEvent body (S n) t eventName None s = Some (s', tr) ∧
           framed s s'.
Proof.
  intros Hp. unfold _fireEvent.
  destruct (new_object s) as [r s1] eqn:E.
  assert (framed s s1) as H1 by (injection E as <- <-; by split).
  rewrite fire_no_parent by (by rewrite (proj2 H1)). simpl.
  eexists _, _. split; [done|].
  eapply framed_trans; [exact H1|]. by apply _fire_framed.
Qed.

(** [disable] on an enabled tool: the flag goes down, the rest stays. *)
Lemma disable_enabled n t m s :
  _enabled (get_tool s t) = true → _map (get_tool s t) = Some m →
  _eventParent (get_emitter s t) = None →
  ∃ s' tr, disable body (S n) t s = Some (s', tr) ∧
           framed (set_enabled t false s) s'.
Proof.
  intros Hen Hm Hp. unfold disable. rewrite Hen. simpl.
  rewrite Hm.
  set (s1 := set_enabled t false s).
  pose proof (_switchEvents_framed To_off t s1) as H2.
  set (s2 := _switchEvents To_off t s1) in *.
  pose proof (call_hook_framed (onDisable (get_tool s2 t)) t s2) as H3.
  destruct (call_hook body (onDisable (get_tool s2 t)) t s2) as [s3 tr1].
  simpl in H3.
  pose proof (framed_trans _ _ _ H2 H3) as H13.
  destruct (_fireEvent_returns n t "disable" s3) as (s4 & tr2 & Hf & H4).
  { by rewrite (proj2 H13). }
  rewrite Hf. simpl. eexists _, _. split; [done|].
  by eapply framed_trans.
Qed.

(** [enable] on a tool that has a map: the flag goes up, the rest stays. *)
Lemma enable_with_map n t m s :
  _map (get_tool s t) = Some m →
  _eventParent (get_emitter s t) = None →
  ∃ s' tr, enable body (S n) t s = Some (s', tr) ∧
           _enabled (get_tool s' t) = true ∧
           _map (get_tool s' t) = Some m ∧
           (∀ t', t' ≠ t → get_tool s' t' = get_tool s t') ∧
           props (ext s') = props (ext s) ∧
           (∀ e, _eventParent (get_emitter s' e) =
                 _eventParent (get_emitter s e)).
Proof.
  intros Hm Hp. unfold enable. rewrite Hm.
  destruct (_enabled (get_tool s t)) eqn:Hen.
  { eexists _, _. repeat split; done. }
  set (s1 := set_enabled t true s).
  pose proof (_switchEvents_framed To_off t s1) as H2.
  set (s2 := _switchEvents To_off t s1) in *.
  pose proof (_switchEvents_framed To_on t s2) as H3.
  unfold _registerEvents.
  set (s3 := _switchEvents To_on t s2) in *.
  pose proof (call_hook_framed (onEnable (get_tool s3 t)) t s3) as H4.
  destruct (call_hook body (onEnable (get_tool s3 t)) t s3) as [s4 tr1].
  simpl in H4.
  pose proof (framed_trans _ _ _ (framed_trans _ _ _ H2 H3) H4) as H14.
  destruct (_fireEvent_returns n t "enable" s4) as (s5 & tr2 & Hf & H5).
  { by rewrite (proj2 H14). }
  rewrite Hf. simpl. eexists _, _. split; [done|].
  destruct (framed_trans _ _ _ H14 H5) as [He Hpar].
  assert (∀ t', get_tool s5 t' = get_tool s1 t') as Ht
    by (intros t'; by apply get_tool_ext).
  unfold s1, set_enabled in Ht.
  repeat split.
  - rewrite Ht, get_tool_set_tool. by rewrite decide_True.
  - rewrite Ht, get_tool_set_tool. by rewrite decide_True.
  - intros t' Hne. rewrite Ht, get_tool_set_tool.
    by rewrite decide_False.
  - by rewrite He.
  - exact Hpar.
Qed.

End MapToolFacts.

(** ** The concrete programs *)

Section DemoFacts.

Import Demo.

(** C1: [on('a b', h1)] on an emitter that already has [h1] on [a] returns
    at the token [a]: the store is unchanged, [b] gets no chain, and firing
    [b] calls nothing. *)
Theorem on_stops_at_registered_token :
  on 0 "a b" (Some h1) None registered_a = registered_a ∧
  get_chain (on 0 "a b" (Some h1) None registered_a) 0 "b" = None ∧
  snd (_fire idle 0 "b" None (on 0 "a b" (Some h1) None registered_a)) = [].
Proof. by vm_compute. Qed.

(** C5: [off('a b', h1)] on an emitter that has [h1] on [b] and no chain
    for [a] returns at the token [a]: the store is unchanged, and firing [b]
    still calls [h1]. *)
Theorem off_stops_at_unregistered_token :
  off 0 "a b" (Some h1) None registered_b = registered_b ∧
  get_chain (off 0 "a b" (Some h1) None registered_b) 0 "b" =
    Some [Subscriber h1 (Some 0)] ∧
  direct (snd (_fire idle 0 "b" None
                 (off 0 "a b" (Some h1) None registered_b))) =
    [Subscriber h1 (Some 0)].
Proof. by vm_compute. Qed.

(** A pass in which [h1] unregisters [h2] and registers [h3]: [h2] still
    runs, [h3] does not, and afterwards the chain is [h1], [h3]. *)
Example pass_ignores_changes :
  direct (snd (_fire meddling 0 "t" None two_listeners)) =
    [Subscriber h1 (Some 0); Subscriber h2 (Some 0)] ∧
  get_chain (fst (_fire meddling 0 "t" None two_listeners)) 0 "t" =
    Some [Subscriber h1 (Some 0); Subscriber h3 (Some 0)].
Proof. by vm_compute. Qed.

(** The payload the caller passed carries [type] and [target] after the
    pass: it was not cloned before it was stamped. *)
Lemma fire_writes_on_payload :
  get_obj (fst (_fire idle 0 "x" (Some 5) with_payload)) 5 ≠
  get_obj with_payload 5.
Proof.
  intros H. apply (f_equal (λ o : obj, o !! "type")) in H.
  vm_compute in H. discriminate.
Qed.


(** With 0 delegating to 1 and 1 to 2, [fire] on 0 calls the listener of 2
    and not the listener of 1. *)
Lemma fire_skips_delegating_parent :
  _eventParent (get_emitter delegating_twice 0) = Some 1 ∧
  get_chain delegating_twice 1 "x" = Some [Subscriber h2 (Some 1)] ∧
  (fire idle 3 0 "x" None delegating_twice ≫= λ '(r, _, tr),
   Some (r, direct tr)) = Some (2, [Subscriber h3 (Some 2)]).
Proof. by vm_compute. Qed.


Lemma idle_leaves_events {X} c : leaves_events (@idle X) c.
Proof. by intros this args s. Qed.

Lemma idle_leaves_frame {X} : leaves_frame (@idle X).
Proof. intros c this args s. apply framed_refl. Qed.

Lemma scribbling_keeps_objects : keeps_objects scribbling.
Proof.
  intros c this args s. unfold scribbling.
  destruct args as [|[| | | |r] [|]]; simpl; try done.
  rewrite dom_insert_L. apply union_subseteq_r.
Qed.

Lemma scribbling_spares p : spares scribbling p.
Proof.
  intros c this args s Hp. unfold scribbling.
  destruct args as [|[| | | |r] [|]]; simpl; try done.
  unfold get_obj. simpl. rewrite lookup_insert_ne; [done|].
  intros ->. apply Hp, list_elem_of_here.
Qed.

Lemma fire_stamps_then_copies_witness :
  keeps_objects scribbling ∧ spares scribbling 5 ∧
  is_Some (get_chain with_payload 0 "x") ∧
  let res := _fire scribbling 0 "x" (Some 5) with_payload in
  let stamped := <["target" := VRef 0]> (<["type" := VStr "x"]>
                   (get_obj with_payload 5)) in
  get_obj res.1 5 = stamped ∧
  Forall (λ e, ∃ r, e_args e = [VRef r] ∧ r ≠ 5 ∧
                    get_obj (e_store e) r = stamped)
         (direct_entries res.2) ∧
  NoDup (map e_args (direct_entries res.2)).
Proof.
  assert (is_Some (get_chain with_payload 0 "x")) as Hc
    by (vm_compute; eauto).
  split; [exact scribbling_keeps_objects|].
  split; [exact (scribbling_spares 5)|].
  split; [exact Hc|].
  exact (fire_stamps_then_copies scribbling 0 "x" (Some 5) 5 with_payload
           scribbling_keeps_objects (scribbling_spares 5) eq_refl Hc).
Defined.

Lemma one_listener_others :
  others (User 1) (default [] (get_chain one_listener 0 "click")).
Proof.
  vm_compute. constructor; [|constructor].
  exists (User 2). split; [reflexivity|discriminate].
Qed.

Lemma one_listener_not_h1 sub :
  registered one_listener 0 "click" sub → handler sub ≠ h1.
Proof.
  intros (chain & Hc & Hin). vm_compute in Hc. injection Hc as <-.
  apply list_elem_of_singleton in Hin as ->. discriminate.
Qed.

Lemma fire_delegates_to_parent_witness :
  _eventParent (get_emitter delegating 0) = Some 1 ∧
  _eventParent (get_emitter delegating 1) = None ∧
  fire idle 2 0 "x" None delegating =
    Some (1, (_fire idle 1 "x" None delegating).1,
          (_fire idle 1 "x" None delegating).2) ∧
  direct (_fire idle 1 "x" None delegating).2 = [Subscriber h2 (Some 1)].
Proof.
  split; [reflexivity|]. split; [reflexivity|].
  destruct (fire_delegates_to_parent idle 0 0 1 "x" None delegating)
    as (_ & Hf & Hd); [reflexivity|reflexivity|].
  split; [exact Hf|]. rewrite Hd. reflexivity.
Defined.

Lemma fire_returns_dispatcher_witness :
  walk delegating_twice 0 2 2 ∧
  fire idle 3 0 "x" None delegating_twice =
    Some (2, (_fire idle 2 "x" None delegating_twice).1,
          (_fire idle 2 "x" None delegating_twice).2).
Proof.
  assert (walk delegating_twice 0 2 2) as Hw.
  { apply (walk_up _ 0 1); [reflexivity|].
    apply (walk_up _ 1 2); [reflexivity|].
    apply walk_here. reflexivity. }
  split; [exact Hw|].
  destruct (fire_returns_dispatcher idle 3 0 2 2 "x" None delegating_twice Hw)
    as [Hf _]; [lia|exact Hf].
Defined.

End DemoFacts.

(** ** More on registration *)

Section EventableMoreFacts.

Context {X : Type}.

Implicit Types (s : store X) (chain : list subscriber).

Lemma split_cons str : ∃ t rest, split str = t :: rest.
Proof.
  induction str as [|c r (t & rest & IH)]; simpl; [eauto|].
  case_bool_decide; [eauto|]. rewrite IH. eauto.
Qed.

Lemma get_chain_set_chain e t c s e' t' :
  get_chain (set_chain e t c s) e' t' =
  if decide ((e, t) = (e', t')) then Some c else get_chain s e' t'.
Proof.
  case_decide as H.
  - injection H as <- <-. apply get_chain_set_eq.
  - by apply get_chain_set_ne.
Qed.

Lemma same_pair_true h ctx sub :
  same_pair h ctx sub = true ↔ sub = Subscriber h (Some ctx).
Proof.
  unfold same_pair. rewrite andb_true_iff, !bool_decide_eq_true.
  destruct sub as [f c]. simpl. split.
  - by intros [-> ->].
  - by intros [= -> ->].
Qed.

Lemma existsb_same_pair h ctx chain :
  existsb (same_pair h ctx) chain = true ↔ Subscriber h (Some ctx) ∈ chain.
Proof.
  rewrite existsb_exists. split.
  - intros (sub & Hin & Hp). apply same_pair_true in Hp as ->.
    by apply list_elem_of_In.
  - intros Hin. exists (Subscriber h (Some ctx)).
    split; [by apply list_elem_of_In|by apply same_pair_true].
Qed.

Lemma registered_set_chain e t c s e' t' sub :
  registered (set_chain e t c s) e' t' sub ↔
  if decide ((e, t) = (e', t')) then sub ∈ c else registered s e' t' sub.
Proof.
  unfold registered. rewrite get_chain_set_chain. case_decide; [|done].
  split; [by intros (? & [= <-] & ?)|eauto].
Qed.

(** [on] only ever adds to chains. *)
Lemma on_types_keeps this h ctx tys s e t sub :
  registered s e t sub → registered (on_types this h ctx tys s) e t sub.
Proof.
  revert s. induction tys as [|ty rest IH]; intros s Hr; simpl; [done|].
  set (s1 := match get_chain s this (toLowerCase ty) with
             | Some _ => s
             | None => set_chain this (toLowerCase ty) [] s
             end).
  assert (registered s1 e t sub) as H1.
  { subst s1. destruct (get_chain s this (toLowerCase ty)) eqn:E; [done|].
    apply registered_set_chain. case_decide as Heq; [|done].
    injection Heq as <- <-. destruct Hr as (c & Hc & _). congruence. }
  destruct (existsb _ _); [done|]. apply IH.
  apply registered_set_chain. case_decide as Heq; [|done].
  injection Heq as <- <-. destruct H1 as (c & -> & Hin). simpl.
  apply elem_of_app. by left.
Qed.

(** After [on], the first token named has the pair. *)
Lemma on_types_first this h ctx t rest s :
  registered (on_types this h ctx (t :: rest) s) this (toLowerCase t)
    (Subscriber h (Some ctx)).
Proof.
  simpl.
  set (s1 := match get_chain s this (toLowerCase t) with
             | Some _ => s
             | None => set_chain this (toLowerCase t) [] s
             end).
  assert (is_Some (get_chain s1 this (toLowerCase t))) as [c Hc].
  { subst s1. destruct (get_chain s this (toLowerCase t)) eqn:E; [eauto|].
    rewrite get_chain_set_eq. eauto. }
  rewrite Hc. simpl. destruct (existsb _ c) eqn:E.
  - exists c. split; [done|]. by apply existsb_same_pair.
  - apply on_types_keeps, registered_set_chain.
    rewrite decide_True by done. apply elem_of_app. right.
    apply list_elem_of_here.
Qed.

(** X1: registering again what was just registered changes nothing, for
    any string of types, handler and context. *)
Theorem on_idempotent this tys h ctx s :
  on this tys h ctx (on this tys h ctx s) = on this tys h ctx s.
Proof.
  destruct h as [h|]; [|done].
  destruct (decide (tys = EmptyString)) as [->|Hne].
  { unfold on. by rewrite bool_decide_eq_true_2. }
  destruct (split_cons tys) as (t & rest & Hsp).
  assert (registered (on this tys (Some h) ctx s) this (toLowerCase t)
            (Subscriber h (Some (default this ctx)))) as (c & Hc & Hin).
  { unfold on. rewrite bool_decide_eq_false_2 by done. rewrite Hsp.
    apply on_types_first. }
  set (s' := on this tys (Some h) ctx s) in *.
  unfold on at 1. rewrite bool_decide_eq_false_2 by done.
  assert (is_Some (_eventMap (get_emitter s' this))) as [m Hm].
  { unfold get_chain in Hc. destruct (_eventMap (get_emitter s' this));
      [eauto|done]. }
  rewrite Hm, Hsp. simpl. rewrite !Hc. simpl.
  by rewrite (proj2 (existsb_same_pair _ _ _) Hin).
Qed.

(** ** Chains without duplicates *)

Lemma nodup_set_chain e t c s :
  nodup_chains s → NoDup c → nodup_chains (set_chain e t c s).
Proof.
  intros Hs Hc e' t' chain. rewrite get_chain_set_chain.
  case_decide; [by intros [= <-]|apply Hs].
Qed.

Lemma nodup_emitters s s' :
  emitters s' = emitters s → nodup_chains s → nodup_chains s'.
Proof.
  intros He Hs e t chain. rewrite (get_chain_emitters _ _ _ _ He). apply Hs.
Qed.

Lemma nodup_on_types this h ctx tys s :
  nodup_chains s → nodup_chains (on_types this h ctx tys s).
Proof.
  revert s. induction tys as [|ty rest IH]; intros s Hs; simpl; [done|].
  set (s1 := match get_chain s this (toLowerCase ty) with
             | Some _ => s
             | None => set_chain this (toLowerCase ty) [] s
             end).
  assert (nodup_chains s1) as H1.
  { subst s1. destruct (get_chain s this (toLowerCase ty)); [done|].
    apply nodup_set_chain; [done|constructor]. }
  destruct (existsb _ _) eqn:E; [done|].
  apply IH, nodup_set_chain; [done|].
  destruct (get_chain s1 this (toLowerCase ty)) as [c|] eqn:Hc; simpl.
  - apply NoDup_app. split; [by eapply H1|]. split; [|apply NoDup_singleton].
    intros sub Hin ->%list_elem_of_singleton.
    apply existsb_same_pair in Hin. simpl in E. congruence.
  - apply NoDup_singleton.
Qed.

Lemma nodup_on this tys h ctx s :
  nodup_chains s → nodup_chains (on this tys h ctx s).
Proof.
  intros Hs. unfold on. destruct h as [h|]; [|done].
  case_bool_decide; [done|]. apply nodup_on_types.
  destruct (_eventMap (get_emitter s this)) eqn:E; [done|].
  intros e t chain. unfold get_chain. rewrite get_emitter_set.
  case_decide as He; [|apply Hs]. simpl. by rewrite lookup_empty.
Qed.

Lemma nodup_off_types this h ctx tys s :
  nodup_chains s → nodup_chains (off_types this h ctx tys s).
Proof.
  revert s. induction tys as [|ty rest IH]; intros s Hs; simpl; [done|].
  destruct (get_chain s this (toLowerCase ty)) as [c|] eqn:Hc; [|done].
  apply IH, nodup_set_chain; [done|].
  rewrite off_scan_filter. apply NoDup_filter. by eapply Hs.
Qed.

Lemma nodup_once_types this tys f ctx s :
  nodup_chains s → nodup_chains (once_types this tys f ctx s).
Proof.
  revert s. induction tys as [|ty rest IH]; intros s Hs; simpl; [done|].
  apply IH, nodup_on. by apply (nodup_emitters s).
Qed.

(** X2: [on], [off] and [once] keep every chain of every emitter free of
    repeated (handler, context) pairs. *)
Theorem registration_keeps_chains_nodup this tys h f ctx s :
  nodup_chains s →
  nodup_chains (on this tys h ctx s) ∧
  nodup_chains (off this tys h ctx s) ∧
  nodup_chains (once this tys f ctx s).
Proof.
  intros Hs. split; [by apply nodup_on|]. split.
  - unfold off. destruct h as [h|]; [|done]. case_bool_decide; [done|].
    destruct (_eventMap (get_emitter s this)); [|done].
    by apply nodup_off_types.
  - by apply nodup_once_types.
Qed.

(** ** Removal *)

Lemma on_types_elsewhere this h ctx tys s e :
  e ≠ this → emitters (on_types this h ctx tys s) !! e = emitters s !! e.
Proof.
  intros Hne. revert s. induction tys as [|ty rest IH]; intros s; simpl;
    [done|].
  set (s1 := match get_chain s this (toLowerCase ty) with
             | Some _ => s
             | None => set_chain this (toLowerCase ty) [] s
             end).
  assert (emitters s1 !! e = emitters s !! e) as H1.
  { subst s1. destruct (get_chain s this (toLowerCase ty)); [done|].
    simpl. by rewrite lookup_insert_ne. }
  destruct (existsb _ _); [done|]. rewrite IH. simpl.
  by rewrite lookup_insert_ne.
Qed.

Lemma off_types_elsewhere this h ctx tys s e :
  e ≠ this → emitters (off_types this h ctx tys s) !! e = emitters s !! e.
Proof.
  intros Hne. revert s. induction tys as [|ty rest IH]; intros s; simpl;
    [done|].
  destruct (get_chain s this (toLowerCase ty)); [|done].
  rewrite IH. simpl. by rewrite lookup_insert_ne.
Qed.

Lemma on_elsewhere this tys h ctx s e :
  e ≠ this → emitters (on this tys h ctx s) !! e = emitters s !! e.
Proof.
  intros Hne. unfold on. destruct h as [h|]; [|done].
  case_bool_decide; [done|]. rewrite on_types_elsewhere by done.
  destruct (_eventMap (get_emitter s this)); [done|].
  simpl. by rewrite lookup_insert_ne.
Qed.

Lemma off_elsewhere this tys h ctx s e :
  e ≠ this → emitters (off this tys h ctx s) !! e = emitters s !! e.
Proof.
  intros Hne. unfold off. destruct h as [h|]; [|done].
  case_bool_decide; [done|].
  destruct (_eventMap (get_emitter s this)); [|done].
  by apply off_types_elsewhere.
Qed.

(** X7: [on] and [off] on an emitter change nothing but handler chains of
    that emitter: every other emitter, the objects, the guards of
    once-handlers, the halted DOM events, the delegation targets and the
    state outside the framework stay as they are. *)
Theorem on_off_touch_own_chains this tys h ctx s :
  chains_only s (on this tys h ctx s) ∧
  chains_only s (off this tys h ctx s) ∧
  ∀ e, e ≠ this →
    emitters (on this tys h ctx s) !! e = emitters s !! e ∧
    emitters (off this tys h ctx s) !! e = emitters s !! e.
Proof.
  split; [apply on_chains_only|]. split; [apply off_chains_only|].
  intros e Hne. split; [by apply on_elsewhere|by apply off_elsewhere].
Qed.

Lemma off_types_registered this h ctx tys s e t sub :
  sub ≠ Subscriber h (Some ctx) ∨ e ≠ this →
  registered (off_types this h ctx tys s) e t sub ↔ registered s e t sub.
Proof.
  intros Hsub. revert s. induction tys as [|ty rest IH]; intros s; simpl;
    [done|].
  destruct (get_chain s this (toLowerCase ty)) as [c|] eqn:Hc; [|done].
  rewrite IH, registered_set_chain. case_decide as Heq; [|done].
  injection Heq as <- <-. rewrite off_scan_filter, list_elem_of_filter.
  split.
  - intros [_ Hin]. by exists c.
  - intros (c' & Hc' & Hin). rewrite Hc in Hc'. injection Hc' as <-.
    split; [|done]. destruct Hsub as [Hsub|]; [|done].
    apply not_true_is_false. by rewrite same_pair_true.
Qed.

(** X4: [off] takes nothing away but the pair it names on the emitter it is
    called on, and adds nothing; with one type token the pair is gone from
    the chain of that type afterwards. *)
Theorem off_removes_the_pair this tys t h ctx s :
  t ≠ EmptyString → single_token t = true →
  (∀ e t' sub,
     sub ≠ Subscriber h (Some (default this ctx)) ∨ e ≠ this →
     (registered (off this tys (Some h) ctx s) e t' sub ↔
      registered s e t' sub)) ∧
  ¬ registered (off this t (Some h) ctx s) this (toLowerCase t)
      (Subscriber h (Some (default this ctx))).
Proof.
  intros Ht Hs. split.
  - intros e t' sub Hsub. unfold off. case_bool_decide; [done|].
    destruct (_eventMap (get_emitter s this)); [|done].
    by apply off_types_registered.
  - destruct (get_chain s this (toLowerCase t)) as [c|] eqn:Hc.
    + intros (c' & Hc' & Hin).
      rewrite (off_single _ _ _ _ _ _ Ht Hs Hc) in Hc'. injection Hc' as <-.
      apply list_elem_of_filter in Hin as [Hf _].
      by rewrite (proj2 (same_pair_true _ _ _) eq_refl) in Hf.
    + assert (off this t (Some h) ctx s = s) as ->.
      { unfold off. rewrite bool_decide_eq_false_2 by done.
        destruct (_eventMap (get_emitter s this)); [|done].
        rewrite (split_single t Hs). simpl. by rewrite Hc. }
      intros (c' & Hc' & _). congruence.
Qed.

Lemma on_single_other this t f ctx s e t' :
  single_token t = true → (this, toLowerCase t) ≠ (e, t') →
  get_chain (on this t (Some f) ctx s) e t' = get_chain s e t'.
Proof.
  intros Hs Hne. unfold on. case_bool_decide; [done|].
  rewrite (split_single t Hs), on_types_other.
  - destruct (_eventMap (get_emitter s this)) eqn:E; [done|].
    unfold get_chain. rewrite get_emitter_set.
    case_decide as He; [subst e|done]. simpl. by rewrite lookup_empty, E.
  - by intros ty ->%list_elem_of_singleton.
Qed.

Lemma off_single_other this t f ctx s e t' :
  single_token t = true → (this, toLowerCase t) ≠ (e, t') →
  get_chain (off this t (Some f) ctx s) e t' = get_chain s e t'.
Proof.
  intros Hs Hne. unfold off. case_bool_decide; [done|].
  destruct (_eventMap (get_emitter s this)); [|done].
  rewrite (split_single t Hs). simpl.
  destruct (get_chain s this (toLowerCase t)); [|done].
  simpl. by rewrite get_chain_set_ne.
Qed.

(** X3: on a type where the pair is not registered, [on] followed by [off]
    of the same pair puts the chain of the type back as it was (an empty
    chain if there was none) and leaves every other chain as it was. *)
Theorem off_undoes_on this t h ctx s :
  t ≠ EmptyString → single_token t = true →
  ¬ registered s this (toLowerCase t)
      (Subscriber h (Some (default this ctx))) →
  get_chain (off this t (Some h) ctx (on this t (Some h) ctx s)) this
    (toLowerCase t) = Some (default [] (get_chain s this (toLowerCase t))) ∧
  ∀ e t', (this, toLowerCase t) ≠ (e, t') →
    get_chain (off this t (Some h) ctx (on this t (Some h) ctx s)) e t' =
    get_chain s e t'.
Proof.
  intros Ht Hs Hnot.
  set (q := default [] (get_chain s this (toLowerCase t))).
  assert (existsb (same_pair h (default this ctx)) q = false) as Hq.
  { apply not_true_is_false. rewrite existsb_same_pair. intros Hin.
    apply Hnot. subst q.
    destruct (get_chain s this (toLowerCase t)) as [c|] eqn:Hc.
    - by exists c.
    - by apply elem_of_nil in Hin. }
  pose proof (on_single this t h ctx s Ht Hs) as Hon. simpl in Hon.
  fold q in Hon. rewrite Hq in Hon. split.
  - rewrite (off_single _ _ _ _ _ _ Ht Hs Hon). f_equal.
    rewrite filter_app, filter_cons_False, filter_nil, app_nil_r.
    + apply filter_all, Forall_forall. intros sub Hin.
      apply not_true_is_false. intros Hp. apply same_pair_true in Hp as ->.
      apply existsb_same_pair in Hin. congruence.
    + by rewrite (proj2 (same_pair_true _ _ _) eq_refl).
  - intros e t' Hne.
    by rewrite off_single_other, on_single_other.
Qed.

(** ** listens *)

Lemma listens_loop_count ctx chain n :
  listens_loop None ctx chain n = n + length chain.
Proof.
  revert n. induction chain as [|sub chain IH]; intros n; simpl; [lia|].
  rewrite IH. lia.
Qed.

Lemma listens_loop_handler h ctx chain :
  listens_loop (Some h) ctx chain 0 =
  if decide (Exists (listens_match h ctx) chain) then 1 else 0.
Proof.
  induction chain as [|sub chain IH]; cbn [listens_loop].
  - case_decide as Hd; [by apply Exists_nil in Hd|done].
  - destruct (bool_decide (h = handler sub) && _) eqn:E.
    + destruct (decide (Exists (listens_match h ctx) (sub :: chain)))
        as [Hd|Hd]; [done|].
      exfalso. apply Hd, Exists_cons. left.
      apply andb_prop in E as [E1 E2]. apply bool_decide_eq_true in E1.
      split; [congruence|]. destruct ctx; [|done].
      by apply bool_decide_eq_true in E2.
    + rewrite IH. apply andb_false_iff in E.
      assert (¬ listens_match h ctx sub) as Hn.
      { intros [H1 H2]. destruct E as [E|E].
        - apply bool_decide_eq_false in E. congruence.
        - destruct ctx as [c|]; [|done].
          by apply bool_decide_eq_false in E. }
      destruct (decide (Exists (listens_match h ctx) chain)) as [He|He];
        destruct (decide (Exists (listens_match h ctx) (sub :: chain)))
          as [He'|He']; try done.
      * exfalso. apply He', Exists_cons. by right.
      * exfalso. apply Exists_cons in He' as [?|?]; done.
Qed.

(** X5: for a plain type (one that is no inherited key of the event map,
    where the code reads a value that is no chain), without a handler
    [listens] is the length of the chain of the type (0 without a chain);
    with a handler it is 1 when the chain holds a subscriber with that
    handler (and with the context, when one is given), and 0 otherwise. *)
Theorem listens_counts this t h ctx s :
  plain_type t →
  listens this t None ctx s =
    length (default [] (get_chain s this (toLowerCase t))) ∧
  listens this t (Some h) ctx s =
    if decide (Exists (listens_match h ctx)
                 (default [] (get_chain s this (toLowerCase t))))
    then 1 else 0.
Proof.
  intros _. unfold listens.
  destruct (get_chain s this (toLowerCase t)) as [c|].
  - split; [apply listens_loop_count|apply listens_loop_handler].
  - split; [done|]. change (default [] None) with (@nil subscriber).
    by destruct (decide (Exists (listens_match h ctx) []))
      as [Hd%Exists_nil|].
Qed.

(** ** Letter case of types *)

Lemma lower_space c :
  bool_decide (lower_ascii c = " "%char) = bool_decide (c = " "%char).
Proof. destruct c as [[] [] [] [] [] [] [] []]; reflexivity. Qed.

Lemma split_lower str : split (toLowerCase str) = map toLowerCase (split str).
Proof.
  induction str as [|c r IH]; simpl; [done|].
  rewrite lower_space, IH. case_bool_decide; [done|].
  by destruct (split r).
Qed.

Lemma lower_empty str : toLowerCase str = EmptyString ↔ str = EmptyString.
Proof. by destruct str. Qed.

Lemma on_types_lower this h ctx tys s :
  on_types this h ctx (map toLowerCase tys) s = on_types this h ctx tys s.
Proof.
  revert s. induction tys as [|ty rest IH]; intros s; simpl; [done|].
  rewrite toLowerCase_idem. destruct (existsb _ _); [done|apply IH].
Qed.

Lemma off_types_lower this h ctx tys s :
  off_types this h ctx (map toLowerCase tys) s = off_types this h ctx tys s.
Proof.
  revert s. induction tys as [|ty rest IH]; intros s; simpl; [done|].
  rewrite toLowerCase_idem.
  destruct (get_chain s this (toLowerCase ty)); [apply IH|done].
Qed.

(** X6: registration is blind to the letter case of the types: [on], [off]
    and [listens] with a string of types do what they do with the
    lowercased string. *)
Theorem types_ignore_case this tys h ctx s :
  on this tys h ctx s = on this (toLowerCase tys) h ctx s ∧
  off this tys h ctx s = off this (toLowerCase tys) h ctx s ∧
  listens this tys h ctx s = listens this (toLowerCase tys) h ctx s.
Proof.
  assert (bool_decide (toLowerCase tys = EmptyString) =
          bool_decide (tys = EmptyString)) as Hb.
  { apply bool_decide_ext, lower_empty. }
  split; [|split].
  - unfold on. destruct h as [h|]; [|done].
    by rewrite Hb, split_lower, on_types_lower.
  - unfold off. destruct h as [h|]; [|done].
    by rewrite Hb, split_lower, off_types_lower.
  - unfold listens. by rewrite toLowerCase_idem.
Qed.

End EventableMoreFacts.

(** ** More on dispatch *)

Section DispatchMoreFacts.

Context {X : Type}.
Variable body : code → option ref → list value → store X → value * store X.

Implicit Types (s : store X) (chain : list subscriber).

Lemma fire_some_walk fuel a ty p s res :
  fire body fuel a ty p s = Some res → ∃ k, walk s a res.1.1 k.
Proof.
  revert a. induction fuel as [|fuel IH]; intros a; simpl; [done|].
  destruct (_eventParent (get_emitter s a)) as [b|] eqn:Ha.
  - intros (k & Hk)%IH. exists (S k). by eapply walk_up.
  - destruct (_fire body a ty p s) as [s1 tr]. intros [= <-]. simpl.
    exists 0. by apply walk_here.
Qed.

(** X8: [fire] returns exactly when following the delegation targets from
    the emitter ends at an emitter without one; in particular on an emitter
    that is its own delegation target it never returns, whatever the fuel. *)
Theorem fire_returns_iff_delegation_ends a ty p s :
  ((∃ fuel res, fire body fuel a ty p s = Some res) ↔
   (∃ r k, walk s a r k)) ∧
  (_eventParent (get_emitter s a) = Some a →
   ∀ fuel, fire body fuel a ty p s = None).
Proof.
  split; [split|].
  - intros (fuel & res & Hf). apply fire_some_walk in Hf as (k & Hk). eauto.
  - intros (r & k & Hw). exists (S k). eexists.
    apply (fire_walk body (S k) a r k); [done|lia].
  - intros Ha fuel. induction fuel as [|fuel IH]; simpl; [done|].
    by rewrite Ha.
Qed.

(** ** Stopping the propagation of DOM events *)

Lemma call_fn_stopped f this args s :
  leaves_stopped body →
  stopped (snd (fst (call_fn body f this args s))) = stopped s.
Proof.
  intros Hb. revert this s.
  induction f as [c|cell me evtType h IH ctx]; intros this s; simpl.
  - pose proof (Hb c this args s). by destruct (body c this args s).
  - destruct (default false (called s !! cell)); [done|].
    match goal with |- context [call_fn body h ?th args ?s1] =>
      pose proof (IH th s1) as H1;
      destruct (call_fn body h th args s1) as [[r s2] tr] end.
    simpl in *.
    match goal with |- context [off me evtType ?f ?c s2] =>
      destruct (off_chains_only me evtType f c s2) as (_&_&Hs&_) end.
    by rewrite Hs.
Qed.

Lemma call_once_returns f this args s :
  is_once_fn f → fst (fst (call_fn body f this args s)) = VUndefined.
Proof.
  destruct f as [c|cell me evtType h ctx]; [done|]. intros _. simpl.
  destruct (default false (called s !! cell)); [done|].
  by destruct (call_fn body h _ args _) as [[r s2] tr].
Qed.

Lemma fire_queue_once_stopped p chain s :
  leaves_stopped body → Forall (λ sub, is_once_fn (handler sub)) chain →
  stopped (fire_queue body p chain s).1 = stopped s.
Proof.
  intros Hb Hq. revert s.
  induction Hq as [|sub chain Hsub _ IH]; intros s; simpl; [done|].
  match goal with |- context [call_fn body ?f ?th ?args ?s1] =>
    pose proof (call_fn_stopped f th args s1 Hb) as H1;
    pose proof (call_once_returns f th args s1 Hsub) as H2;
    destruct (call_fn body f th args s1) as [[bubble s2] tr] end.
  simpl in H1, H2. subst bubble. simpl.
  specialize (IH s2). destruct (fire_queue body p chain s2) as [s4 tr'].
  simpl in *. congruence.
Qed.

(** X9: a function registered through [once] cannot stop the propagation of
    the DOM event: the closure that wraps it returns nothing, so a pass over
    a chain of such closures halts no event, whatever the wrapped functions
    return and whatever the payload carries. *)
Theorem once_handlers_stop_nothing this ty param chain s :
  leaves_stopped body →
  get_chain s this (toLowerCase ty) = Some chain →
  Forall (λ sub, is_once_fn (handler sub)) chain →
  stopped (_fire body this ty param s).1 = stopped s.
Proof.
  intros Hb Hc Hq. unfold _fire. rewrite Hc.
  destruct (match param with Some p0 => (p0, s) | None => new_object s end)
    as [p0 s1] eqn:Ep.
  rewrite fire_queue_once_stopped by done.
  by destruct param; injection Ep as <- <-.
Qed.

(** One step of the dispatch loop keeps the payload and the halted events,
    up to what the loop itself halts afterwards. *)
Lemma dispatch_step p f this s :
  keeps_objects body → spares body p → leaves_stopped body →
  p ∈ dom (heap s) →
  let r := call_fn body f this [VRef (fresh_ref s)]
             (set_heap (<[fresh_ref s := get_obj s p]> (heap s)) s) in
  p ∈ dom (heap (snd (fst r))) ∧ get_obj (snd (fst r)) p = get_obj s p ∧
  stopped (snd (fst r)) = stopped s.
Proof.
  intros Hk Hsp Hst Hp.
  pose proof (fresh_ref_new s) as Hr.
  set (s1 := set_heap (<[fresh_ref s := get_obj s p]> (heap s)) s).
  assert (fresh_ref s ≠ p) as Hrp by (intros Heq; by rewrite Heq in Hr).
  destruct (call_fn_heap body p f this [VRef (fresh_ref s)] s1 Hk Hsp)
    as [Hd Ho].
  pose proof (call_fn_stopped f this [VRef (fresh_ref s)] s1 Hst) as Hs.
  simpl. split; [|split].
  - apply Hd. unfold s1. simpl. rewrite dom_insert_L. set_solver.
  - rewrite Ho.
    + unfold get_obj, s1. simpl. by rewrite lookup_insert_ne.
    + intros Hin%list_elem_of_singleton. congruence.
  - by rewrite Hs.
Qed.

Lemma fire_queue_no_dom_event p chain s :
  keeps_objects body → spares body p → leaves_stopped body →
  p ∈ dom (heap s) → truthy (get_prop s p "domEvent") = false →
  stopped (fire_queue body p chain s).1 = stopped s.
Proof.
  intros Hk Hsp Hst. revert s.
  induction chain as [|sub chain IH]; intros s Hp Hd; simpl; [done|].
  destruct (dispatch_step p (handler sub) (context sub) s Hk Hsp Hst Hp)
    as (Hp2 & Ho2 & Hs2).
  destruct (call_fn body _ _ _ _) as [[bubble s2] tr]. simpl in Hp2, Ho2, Hs2.
  assert (get_prop s2 p "domEvent" = get_prop s p "domEvent") as Hg
    by (unfold get_prop; by rewrite Ho2).
  rewrite Hg, Hd.
  assert ((if bool_decide (bubble = VBool false) then s2 else s2) = s2) as ->
    by (by destruct (bool_decide _)).
  specialize (IH s2 Hp2). rewrite Hg in IH. specialize (IH Hd).
  destruct (fire_queue body p chain s2) as [s4 tr']. simpl in *. congruence.
Qed.

Lemma stamped_payload this ty (param : option ref) s p0 s1 :
  match param with Some p0 => (p0, s) | None => new_object s end = (p0, s1) →
  let s3 := set_prop p0 "target" (VRef this)
              (set_prop p0 "type" (VStr ty) s1) in
  p0 = payload param s ∧ p0 ∈ dom (heap s3) ∧ stopped s3 = stopped s ∧
  get_prop s3 p0 "domEvent" = get_prop s p0 "domEvent".
Proof.
  intros Ep. simpl.
  assert (p0 = payload param s ∧ get_obj s1 p0 = get_obj s p0 ∧
          stopped s1 = stopped s) as (Hp & Ho & Hs).
  { destruct param as [p|]; injection Ep as <- <-; [done|].
    split; [done|]. split; [|done].
    rewrite (get_obj_absent s) by apply fresh_ref_new.
    unfold get_obj. simpl. by rewrite lookup_insert_eq. }
  split; [done|]. split; [|split; [done|]].
  - unfold set_prop. simpl. rewrite dom_insert_L. set_solver.
  - unfold get_prop, set_prop, get_obj. simpl.
    rewrite !lookup_insert_eq. simpl.
    rewrite !lookup_insert_ne by done. fold (get_obj s1 p0).
    by rewrite Ho.
Qed.

(** X10: when the payload carries no DOM event, a pass halts nothing,
    whatever the handlers return.  The functions of the program are taken
    to delete no object, to leave the payload alone unless it is passed to
    them and to halt no event themselves. *)
Theorem no_dom_event_nothing_stopped this ty param s :
  keeps_objects body → spares body (payload param s) →
  leaves_stopped body →
  truthy (get_prop s (payload param s) "domEvent") = false →
  stopped (_fire body this ty param s).1 = stopped s.
Proof.
  intros Hk Hsp Hst Hd. unfold _fire.
  destruct (get_chain s this (toLowerCase ty)) as [chain|]; [|done].
  destruct (match param with Some p0 => (p0, s) | None => new_object s end)
    as [p0 s1] eqn:Ep.
  destruct (stamped_payload this ty param s p0 s1 Ep) as (-> & Hp & Hs & Hg).
  rewrite fire_queue_no_dom_event; try done. by rewrite Hg.
Qed.

Lemma fire_queue_refusals p chain d s :
  keeps_objects body → spares body p → leaves_stopped body →
  all_refuse body →
  Forall (λ sub, ∃ c, handler sub = Native c) chain →
  p ∈ dom (heap s) → get_prop s p "domEvent" = d → truthy d = true →
  stopped (fire_queue body p chain s).1 =
  stopped s ++ replicate (length chain) d.
Proof.
  intros Hk Hsp Hst Hall Hq. revert s.
  induction Hq as [|sub chain (c & Hc) _ IH]; intros s Hp Hd Ht; simpl.
  { by rewrite app_nil_r. }
  destruct (dispatch_step p (handler sub) (context sub) s Hk Hsp Hst Hp)
    as (Hp2 & Ho2 & Hs2).
  rewrite Hc in *. simpl in *.
  match goal with |- context [body c ?th ?args ?s1] =>
    pose proof (Hall c th args s1) as Hr;
    destruct (body c th args s1) as [bubble s2] end.
  simpl in *. subst bubble. rewrite bool_decide_eq_true_2 by done.
  assert (get_prop s2 p "domEvent" = d) as Hg
    by (unfold get_prop; by rewrite Ho2).
  rewrite Hg, Ht.
  specialize (IH (stopPropagation d s2) Hp2 Hg Ht).
  destruct (fire_queue body p chain (stopPropagation d s2)) as [s4 tr'].
  simpl in *. rewrite IH, Hs2, <- app_assoc. done.
Qed.

(** X11: when the payload carries a DOM event and every handler of the
    chain returns [false], the pass halts the event once for each handler
    and still calls them all: a refusal does not end the pass.  The handlers
    are functions of the program, taken to delete no object, to leave the
    payload alone unless it is passed to them and to halt no event
    themselves. *)
Theorem refusals_stop_event_not_pass this ty param chain d s :
  keeps_objects body → spares body (payload param s) →
  leaves_stopped body → all_refuse body →
  get_chain s this (toLowerCase ty) = Some chain →
  Forall (λ sub, ∃ c, handler sub = Native c) chain →
  get_prop s (payload param s) "domEvent" = d → truthy d = true →
  stopped (_fire body this ty param s).1 =
    stopped s ++ replicate (length chain) d ∧
  direct (_fire body this ty param s).2 = chain.
Proof.
  intros Hk Hsp Hst Hall Hc Hq Hd Ht. split.
  - unfold _fire. rewrite Hc.
    destruct (match param with Some p0 => (p0, s) | None => new_object s end)
      as [p0 s1] eqn:Ep.
    destruct (stamped_payload this ty param s p0 s1 Ep)
      as (-> & Hp & Hs & Hg).
    rewrite (fire_queue_refusals _ chain d); try done; [by rewrite Hs|].
    by rewrite Hg.
  - by rewrite _fire_direct, Hc.
Qed.

End DispatchMoreFacts.

(** ** Clearing listeners, and strings of several types *)

Section TokensFacts.

Context {X : Type}.
Variable body : code → option ref → list value → store X → value * store X.

Implicit Types (s : store X) (chain : list subscriber).

(** X12: after [_clearAllListeners] the emitter has no listener of any
    type: [listens] is 0, a pass calls nothing and leaves the store (the
    payload included) as it is, and [off] changes nothing; the other
    emitters and the delegation target are kept, and a later [on] starts a
    chain that holds its pair alone. *)
Theorem clearAll_forgets_listeners this s :
  let s' := _clearAllListeners this s in
  (∀ t h ctx, listens this t h ctx s' = 0) ∧
  (∀ ty p, _fire body this ty p s' = (s', [])) ∧
  (∀ tys h ctx, off this tys h ctx s' = s') ∧
  (∀ e, e ≠ this → get_emitter s' e = get_emitter s e) ∧
  _eventParent (get_emitter s' this) = _eventParent (get_emitter s this) ∧
  (∀ t h ctx, t ≠ EmptyString → single_token t = true →
     get_chain (on this t (Some h) ctx s') this (toLowerCase t) =
     Some [Subscriber h (Some (default this ctx))]).
Proof.
  intros s'.
  assert (_eventMap (get_emitter s' this) = None) as Hm.
  { unfold s', _clearAllListeners. rewrite get_emitter_set.
    by rewrite decide_True. }
  assert (∀ t, get_chain s' this t = None) as Hc.
  { intros t. unfold get_chain. by rewrite Hm. }
  split; [|split; [|split; [|split; [|split]]]].
  - intros t h ctx. unfold listens. by rewrite Hc.
  - intros ty p. unfold _fire. by rewrite Hc.
  - intros tys h ctx. unfold off. destruct h; [|done].
    case_bool_decide; [done|]. by rewrite Hm.
  - intros e Hne. unfold s', _clearAllListeners. rewrite get_emitter_set.
    by rewrite decide_False.
  - unfold s', _clearAllListeners. rewrite get_emitter_set.
    by rewrite decide_True.
  - intros t h ctx Ht Hs. rewrite (on_single _ _ _ _ _ Ht Hs). simpl.
    by rewrite Hc.
Qed.

(** X13: [_clearListeners(t)] looks the chain up under the lowercased type
    but clears the entry under the type as it was passed.  With a lowercase
    [t] the chain of [t] is gone; with a [t] that has a capital letter the
    chain of the lowercased type, the one [on] filled and [fire] reads,
    stays as it was.  No other chain changes in either case. *)
Theorem clearListeners_needs_lowercase this t s :
  (toLowerCase t = t → get_chain (_clearListeners this t s) this t = None) ∧
  (toLowerCase t ≠ t →
   get_chain (_clearListeners this t s) this (toLowerCase t) =
   get_chain s this (toLowerCase t)) ∧
  (∀ e t', (e, t') ≠ (this, t) →
     get_chain (_clearListeners this t s) e t' = get_chain s e t').
Proof.
  assert (∀ e t', (e, t') ≠ (this, t) →
     get_chain (_clearListeners this t s) e t' = get_chain s e t') as Hother.
  { intros e t' Hne. unfold _clearListeners.
    destruct (get_chain s this (toLowerCase t)) as [c|] eqn:Hc; [|done].
    unfold get_chain. rewrite get_emitter_set.
    case_decide as He; [subst e|done]. simpl.
    rewrite lookup_delete_ne by congruence.
    destruct (_eventMap (get_emitter s this)); [done|].
    simpl. apply lookup_empty. }
  split; [|split; [|done]].
  - intros Hl. unfold _clearListeners. rewrite Hl.
    destruct (get_chain s this t) as [c|] eqn:Hc; [|done].
    unfold get_chain. rewrite get_emitter_set, decide_True by done.
    simpl. apply lookup_delete_eq.
  - intros Hl. apply Hother. congruence.
Qed.

Lemma on_first_then_rest this t rest h ctx s :
  t ≠ EmptyString → single_token t = true → rest ≠ EmptyString →
  (¬ registered s this (toLowerCase t)
       (Subscriber h (Some (default this ctx))) →
   on this (t +:+ " " +:+ rest) (Some h) ctx s =
   on this rest (Some h) ctx (on this t (Some h) ctx s)) ∧
  (registered s this (toLowerCase t)
     (Subscriber h (Some (default this ctx))) →
   on this (t +:+ " " +:+ rest) (Some h) ctx s = s).
Proof.
  intros Ht Hs Hrest.
  assert (t +:+ " " +:+ rest ≠ EmptyString) as Hne by (by destruct t).
  unfold on. rewrite !bool_decide_eq_false_2 by done.
  rewrite (split_app_space t rest Hs), (split_single t Hs).
  set (c := default this ctx).
  set (s1 := match _eventMap (get_emitter s this) with
             | Some _ => s
             | None =>
                 set_emitter this
                   (Emitter (Some ∅) (_eventParent (get_emitter s this))) s
             end).
  assert (get_chain s1 this (toLowerCase t) = get_chain s this (toLowerCase t))
    as Hc1.
  { subst s1. destruct (_eventMap (get_emitter s this)) eqn:E; [done|].
    unfold get_chain. rewrite get_emitter_set, decide_True, E by done.
    simpl. apply lookup_empty. }
  split.
  - intros Hnot. simpl.
    set (s2 := match get_chain s1 this (toLowerCase t) with
               | Some _ => s1
               | None => set_chain this (toLowerCase t) [] s1
               end).
    assert (existsb (same_pair h c)
              (default [] (get_chain s2 this (toLowerCase t))) = false) as Hd.
    { apply not_true_is_false. rewrite existsb_same_pair. intros Hin.
      subst s2. destruct (get_chain s1 this (toLowerCase t)) as [q|] eqn:E.
      - rewrite E in Hin. simpl in Hin. apply Hnot. exists q.
        by rewrite <- Hc1.
      - rewrite get_chain_set_eq in Hin. by apply elem_of_nil in Hin. }
    rewrite Hd.
    match goal with |- on_types _ _ _ _ ?s3 = _ =>
      assert (is_Some (_eventMap (get_emitter s3 this))) as [m ->] end.
    { unfold set_chain. rewrite get_emitter_set, decide_True by done.
      simpl. eauto. }
    done.
  - intros (q & Hq & Hin). simpl. rewrite Hc1, Hq. simpl.
    rewrite Hc1, Hq. simpl.
    rewrite (proj2 (existsb_same_pair _ _ _) Hin).
    subst s1. unfold get_chain in Hq.
    by destruct (_eventMap (get_emitter s this)).
Qed.

Lemma off_first_then_rest this t rest h ctx s :
  t ≠ EmptyString → single_token t = true → rest ≠ EmptyString →
  (is_Some (get_chain s this (toLowerCase t)) →
   off this (t +:+ " " +:+ rest) (Some h) ctx s =
   off this rest (Some h) ctx (off this t (Some h) ctx s)) ∧
  (get_chain s this (toLowerCase t) = None →
   off this (t +:+ " " +:+ rest) (Some h) ctx s = s).
Proof.
  intros Ht Hs Hrest.
  assert (t +:+ " " +:+ rest ≠ EmptyString) as Hne by (by destruct t).
  unfold off. rewrite !bool_decide_eq_false_2 by done.
  rewrite (split_app_space t rest Hs), (split_single t Hs).
  split.
  - intros [q Hq].
    assert (is_Some (_eventMap (get_emitter s this))) as [m Hm].
    { unfold get_chain in Hq. destruct (_eventMap (get_emitter s this));
        [eauto|done]. }
    rewrite Hm. simpl. rewrite Hq.
    match goal with |- off_types _ _ _ _ ?s3 = _ =>
      assert (is_Some (_eventMap (get_emitter s3 this))) as [m' ->] end.
    { unfold set_chain. rewrite get_emitter_set, decide_True by done.
      simpl. eauto. }
    done.
  - intros Hq. destruct (_eventMap (get_emitter s this)); [|done].
    simpl. by rewrite Hq.
Qed.

(** X15: [on] with a first token followed by further types acts token by
    token when the pair is not yet registered for the first token: it is
    [on] of the first token, then [on] of the rest.  When the pair is
    registered for the first token, the whole call changes nothing. *)
Theorem on_tokens_in_turn this t rest h ctx s :
  t ≠ EmptyString → single_token t = true → rest ≠ EmptyString →
  (¬ registered s this (toLowerCase t)
       (Subscriber h (Some (default this ctx))) →
   on this (t +:+ " " +:+ rest) (Some h) ctx s =
   on this rest (Some h) ctx (on this t (Some h) ctx s)) ∧
  (registered s this (toLowerCase t)
     (Subscriber h (Some (default this ctx))) →
   on this (t +:+ " " +:+ rest) (Some h) ctx s = s).
Proof. apply on_first_then_rest. Qed.

(** X16: [off] with a first token followed by further types acts token by
    token when the first token has a chain: it is [off] of the first token,
    then [off] of the rest.  When the first token has no chain, the whole
    call changes nothing. *)
Theorem off_tokens_in_turn this t rest h ctx s :
  t ≠ EmptyString → single_token t = true → rest ≠ EmptyString →
  (is_Some (get_chain s this (toLowerCase t)) →
   off this (t +:+ " " +:+ rest) (Some h) ctx s =
   off this rest (Some h) ctx (off this t (Some h) ctx s)) ∧
  (get_chain s this (toLowerCase t) = None →
   off this (t +:+ " " +:+ rest) (Some h) ctx s = s).
Proof. apply off_first_then_rest. Qed.

(** ** [once] with an object of handlers *)

Lemma filter_out_wrapper c q cell me t h ctx x :
  others c q →
  filter (λ sub, same_pair (OnceHandler cell me t h ctx) x sub = false)
    (q ++ [Subscriber (OnceHandler cell me t h ctx) (Some x)]) = q.
Proof.
  intros Ho. rewrite filter_app.
  destruct (absent_no_pair (OnceHandler cell me t h ctx) x q) as [_ ->].
  { apply (others_not c); [done|]. right. by eexists _, _, _, _, _. }
  rewrite filter_cons_False; [by rewrite filter_nil, app_nil_r|].
  by rewrite (proj2 (same_pair_true _ _ _) eq_refl).
Qed.

(** The first firing of a wrapper that stands last in the chains of two
    types calls the wrapped function once and takes the wrapper off both. *)
Lemma fire_shared_wrapper this t1 t2 c ctx cell p q1 q2 s :
  t1 ≠ EmptyString → single_token t1 = true →
  t2 ≠ EmptyString → single_token t2 = true →
  toLowerCase t1 ≠ toLowerCase t2 →
  (∀ c', leaves_events body c') →
  get_chain s this (toLowerCase t1) =
    Some (q1 ++ [Subscriber
                   (OnceHandler cell this (t1 +:+ " " +:+ t2) (Native c) ctx)
                   (Some this)]) →
  get_chain s this (toLowerCase t2) =
    Some (q2 ++ [Subscriber
                   (OnceHandler cell this (t1 +:+ " " +:+ t2) (Native c) ctx)
                   (Some this)]) →
  others c q1 → others c q2 →
  default false (called s !! cell) = false →
  get_chain (_fire body this t1 p s).1 this (toLowerCase t1) = Some q1 ∧
  get_chain (_fire body this t1 p s).1 this (toLowerCase t2) = Some q2 ∧
  count_calls (Native c) (_fire body this t1 p s).2 = 1 ∧
  (∀ e, _eventParent (get_emitter (_fire body this t1 p s).1 e) =
        _eventParent (get_emitter s e)).
Proof.
  intros Ht1 Hs1 Ht2 Hs2 Hl Hb Hch1 Hch2 Ho1 Ho2 Hcalled.
  unfold _fire. rewrite Hch1.
  destruct (match p with Some p0 => (p0, s) | None => new_object s end)
    as [p0 s1] eqn:Ep.
  destruct (stamped_events this t1 p s p0 s1 Ep) as [He3 Hc3].
  rewrite fire_queue_app.
  match goal with |- context [fire_queue body p0 q1 ?s3] =>
    destruct (fire_queue_others body c p0 q1 s3 Hb Ho1) as (He4 & Hc4 & Hn4);
    destruct (fire_queue body p0 q1 s3) as [s4 tr4] end.
  simpl in He3, Hc3, He4, Hc4, Hn4.
  simpl. rewrite Hc4, Hc3, Hcalled.
  match goal with |- context [body c ?th ?args ?s0] =>
    destruct (Hb c th args s0) as [Hbe Hbc];
    destruct (body c th args s0) as [r s5] end.
  simpl in *.
  set (w := OnceHandler cell this (t1 +:+ " " +:+ t2) (Native c) ctx) in *.
  assert (emitters s5 = emitters s) as He5 by congruence.
  rewrite <- (get_chain_emitters _ _ this (toLowerCase t1) He5) in Hch1.
  rewrite <- (get_chain_emitters _ _ this (toLowerCase t2) He5) in Hch2.
  destruct (off_first_then_rest this t1 t2 w (Some this) s5 Ht1 Hs1 Ht2)
    as [Hoff _].
  rewrite Hoff by eauto. clear Hoff.
  pose proof (off_single this t1 w (Some this) s5 _ Ht1 Hs1 Hch1) as Hf1.
  simpl in Hf1. unfold w in Hf1 at 2 3.
  rewrite (filter_out_wrapper c) in Hf1 by done. fold w in Hf1.
  assert (get_chain (off this t1 (Some w) (Some this) s5) this
            (toLowerCase t2) = Some (q2 ++ [Subscriber w (Some this)]))
    as Hf2.
  { rewrite off_single_other; [done|done|congruence]. }
  split; [|split; [|split]].
  - rewrite off_single_other; [done|done|congruence].
  - rewrite (off_single _ _ _ _ _ _ Ht2 Hs2 Hf2). simpl. unfold w.
    by rewrite (filter_out_wrapper c).
  - rewrite count_calls_app, Hn4.
    unfold count_calls. simpl.
    rewrite filter_cons_False by done.
    by rewrite filter_cons_True.
  - intros e.
    destruct (off_chains_only this t2 (Some w) (Some this)
                (off this t1 (Some w) (Some this) s5)) as (_&_&_&_&Hp2).
    destruct (off_chains_only this t1 (Some w) (Some this) s5)
      as (_&_&_&_&Hp1).
    rewrite Hp2, Hp1. unfold get_emitter. by rewrite He5.
Qed.

(** X14: [once] with an object whose key names two types makes one closure
    for the key and registers it for both types, so the two types share its
    guard: the first [fire] of one type calls the handler once and takes the
    closure off both chains, and a [fire] of the other type no longer calls
    the handler.  The types may have other functions of the program as
    listeners; the functions of the program leave the registrations
    alone. *)
Theorem once_keys_share_guard n this t1 t2 c ctx p1 p2 s :
  t1 ≠ EmptyString → single_token t1 = true →
  t2 ≠ EmptyString → single_token t2 = true →
  toLowerCase t1 ≠ toLowerCase t2 →
  (∀ c', leaves_events body c') →
  others c (default [] (get_chain s this (toLowerCase t1))) →
  others c (default [] (get_chain s this (toLowerCase t2))) →
  _eventParent (get_emitter s this) = None →
  let w := OnceHandler (fresh (dom (called s))) this (t1 +:+ " " +:+ t2)
             (Native c) ctx in
  let s0 := once_keys this [(t1 +:+ " " +:+ t2, Native c)] ctx s in
  registered s0 this (toLowerCase t1) (Subscriber w (Some this)) ∧
  registered s0 this (toLowerCase t2) (Subscriber w (Some this)) ∧
  ∃ s1 tr1 s2 tr2,
    fire body (S n) this t1 p1 s0 = Some (this, s1, tr1) ∧
    count_calls (Native c) tr1 = 1 ∧
    ¬ registered s1 this (toLowerCase t2) (Subscriber w (Some this)) ∧
    fire body (S n) this t2 p2 s1 = Some (this, s2, tr2) ∧
    count_calls (Native c) tr2 = 0.
Proof.
  intros Ht1 Hs1 Ht2 Hs2 Hl Hb Ho1 Ho2 Hpar w s0.
  set (q1 := default [] (get_chain s this (toLowerCase t1))) in *.
  set (q2 := default [] (get_chain s this (toLowerCase t2))) in *.
  set (s' := set_called (<[fresh (dom (called s)) := false]> (called s)) s).
  assert (s0 = on this (t1 +:+ " " +:+ t2) (Some w) None s') as Hs0 by done.
  assert (∀ e t, get_chain s' e t = get_chain s e t) as Hs' by done.
  assert (∀ q, others c q → existsb (same_pair w this) q = false) as Hno.
  { intros q Hq. apply (absent_no_pair w this q), (others_not c); [done|].
    right. by eexists _, _, _, _, _. }
  assert (¬ registered s' this (toLowerCase t1) (Subscriber w (Some this)))
    as Hnot.
  { intros (q & Hq & Hin). rewrite Hs' in Hq.
    subst q1. rewrite Hq in Ho1. simpl in Ho1.
    apply existsb_same_pair in Hin. rewrite (Hno q Ho1) in Hin. done. }
  destruct (on_first_then_rest this t1 t2 w None s' Ht1 Hs1 Ht2)
    as [Hon _].
  specialize (Hon Hnot). simpl in Hon.
  pose proof (on_single this t1 w None s' Ht1 Hs1) as Hc1. simpl in Hc1.
  rewrite Hs' in Hc1. fold q1 in Hc1.
  rewrite (Hno q1 Ho1) in Hc1.
  set (sa := on this t1 (Some w) None s') in *.
  pose proof (on_single this t2 w None sa Ht2 Hs2) as Hc2. simpl in Hc2.
  assert (get_chain sa this (toLowerCase t2) =
          get_chain s this (toLowerCase t2)) as Ha2.
  { unfold sa. rewrite on_single_other; [apply Hs'|done|congruence]. }
  rewrite Ha2 in Hc2. fold q2 in Hc2. rewrite (Hno q2 Ho2) in Hc2.
  assert (get_chain s0 this (toLowerCase t1) =
          Some (q1 ++ [Subscriber w (Some this)])) as Hch1.
  { rewrite Hs0, Hon, on_single_other; [done|done|congruence]. }
  assert (get_chain s0 this (toLowerCase t2) =
          Some (q2 ++ [Subscriber w (Some this)])) as Hch2
    by (by rewrite Hs0, Hon).
  assert (called s0 = called s' ∧
          ∀ e, _eventParent (get_emitter s0 e) =
               _eventParent (get_emitter s e)) as [Hcl Hp0].
  { rewrite Hs0.
    destruct (on_chains_only this (t1 +:+ " " +:+ t2) (Some w) None s')
      as (_&?&_&_&?). done. }
  assert (default false (called s0 !! fresh (dom (called s))) = false)
    as Hflag.
  { rewrite Hcl. unfold s'. simpl. by rewrite lookup_insert_eq. }
  destruct (fire_shared_wrapper this t1 t2 c ctx _ p1 q1 q2 s0
              Ht1 Hs1 Ht2 Hs2 Hl Hb Hch1 Hch2 Ho1 Ho2 Hflag)
    as (Hf1 & Hf2 & Hn1 & Hp1).
  set (r1 := _fire body this t1 p1 s0) in *.
  destruct (fire_others body c this t2 p2 q2 r1.1 Hb Hf2 Ho2)
    as (_ & _ & Hn2).
  split; [exists (q1 ++ [Subscriber w (Some this)]); split; [done|]
         |split; [exists (q2 ++ [Subscriber w (Some this)]); split; [done|]|]].
  - apply elem_of_app. right. apply list_elem_of_here.
  - apply elem_of_app. right. apply list_elem_of_here.
  - exists r1.1, r1.2, (_fire body this t2 p2 r1.1).1,
           (_fire body this t2 p2 r1.1).2.
    split; [apply fire_no_parent; by rewrite Hp0|].
    split; [done|]. split; [|split; [|done]].
    + intros (q & Hq & Hin). rewrite Hf2 in Hq. injection Hq as <-.
      apply existsb_same_pair in Hin. by rewrite (Hno q2 Ho2) in Hin.
    + apply fire_no_parent. by rewrite Hp1, Hp0.
Qed.

End TokensFacts.

(** ** The internal symbol of a text box *)

Section TextBoxFacts.

Import TextBox.

Context {X : Type}.

Implicit Types (s : store X) (o : obj).

Lemma swap_prop_obj k a b r s :
  get_obj (swap_prop k a b r s) r = reversed k a b (get_obj s r) ∧
  (∀ r', r' ≠ r → get_obj (swap_prop k a b r s) r' = get_obj s r') ∧
  dom (heap s) ⊆ dom (heap (swap_prop k a b r s)).
Proof.
  unfold swap_prop, reversed, get_prop.
  assert (∀ v, (default VUndefined (get_obj s r !! k) = VStr v) ↔
               get_obj s r !! k = Some (VStr v)) as Hv.
  { intros v. destruct (get_obj s r !! k); simpl; split; congruence. }
  rewrite !(bool_decide_ext _ _ (Hv _)).
  assert (∀ v, get_obj (set_prop r k v s) r = <[k := v]> (get_obj s r) ∧
               (∀ r', r' ≠ r → get_obj (set_prop r k v s) r' = get_obj s r') ∧
               dom (heap s) ⊆ dom (heap (set_prop r k v s))) as Hset.
  { intros v. unfold set_prop, get_obj. simpl. split; [|split].
    - by rewrite lookup_insert_eq.
    - intros r' Hr. by rewrite lookup_insert_ne.
    - rewrite dom_insert_L. apply union_subseteq_r. }
  destruct (bool_decide (get_obj s r !! k = Some (VStr a))); [apply Hset|].
  destruct (bool_decide (get_obj s r !! k = Some (VStr b))); [apply Hset|].
  done.
Qed.

Lemma reversed_other k k' a b o :
  k ≠ k' → reversed k a b o !! k' = o !! k'.
Proof.
  intros Hk. unfold reversed.
  destruct (bool_decide (o !! k = Some (VStr a)));
    [by rewrite lookup_insert_ne|].
  destruct (bool_decide (o !! k = Some (VStr b)));
    [by rewrite lookup_insert_ne|done].
Qed.

Lemma reversed_at k a b o v :
  a ≠ b → o !! k = Some (VStr v) →
  reversed k a b o !! k =
  Some (VStr (if bool_decide (v = a) then b
              else if bool_decide (v = b) then a else v)).
Proof.
  intros Hab Ho. unfold reversed. rewrite Ho.
  destruct (decide (v = a)) as [->|Hva].
  - rewrite !bool_decide_eq_true_2 by done. by rewrite lookup_insert_eq.
  - rewrite (bool_decide_eq_false_2 (Some (VStr v) = Some (VStr a)))
      by congruence.
    rewrite (bool_decide_eq_false_2 (v = a)) by done.
    destruct (decide (v = b)) as [->|Hvb].
    + rewrite !bool_decide_eq_true_2 by done. by rewrite lookup_insert_eq.
    + rewrite (bool_decide_eq_false_2 (Some (VStr v) = Some (VStr b)))
        by congruence.
      by rewrite (bool_decide_eq_false_2 (v = b)).
Qed.

(** Exchanging twice gives the properties back. *)
Lemma reversed_twice k a b o :
  a ≠ b → reversed k a b (reversed k a b o) = o.
Proof.
  intros Hab. unfold reversed at 2.
  destruct (bool_decide (o !! k = Some (VStr a))) eqn:Ea.
  - apply bool_decide_eq_true in Ea. unfold reversed.
    rewrite lookup_insert_eq.
    rewrite bool_decide_eq_false_2 by congruence.
    rewrite bool_decide_eq_true_2 by done.
    rewrite insert_insert_eq. by apply insert_id.
  - destruct (bool_decide (o !! k = Some (VStr b))) eqn:Eb.
    + apply bool_decide_eq_true in Eb. unfold reversed.
      rewrite lookup_insert_eq.
      rewrite bool_decide_eq_true_2 by done.
      rewrite insert_insert_eq. by apply insert_id.
    + unfold reversed. by rewrite Ea, Eb.
Qed.

Lemma reversed_insert k k' a b v o :
  k ≠ k' → reversed k a b (<[k' := v]> o) = <[k' := v]> (reversed k a b o).
Proof.
  intros Hk. unfold reversed. rewrite !lookup_insert_ne by done.
  destruct (bool_decide (o !! k = Some (VStr a)));
    [by apply insert_insert_ne|].
  destruct (bool_decide (o !! k = Some (VStr b)));
    [by apply insert_insert_ne|done].
Qed.

Lemma reversed_commute k k' a b a' b' o :
  k ≠ k' →
  reversed k a b (reversed k' a' b' o) =
  reversed k' a' b' (reversed k a b o).
Proof.
  intros Hk. unfold reversed at 2.
  destruct (bool_decide (o !! k' = Some (VStr a'))) eqn:Ea.
  - rewrite reversed_insert by done. unfold reversed at 2.
    by rewrite reversed_other, Ea.
  - destruct (bool_decide (o !! k' = Some (VStr b'))) eqn:Eb.
    + rewrite reversed_insert by done. unfold reversed at 2.
      by rewrite reversed_other, Ea, Eb.
    + unfold reversed at 2. by rewrite reversed_other, Ea, Eb.
Qed.

(** What [_getInternalSymbol] returns and leaves. *)
Lemma internal_symbol_spec symbol s :
  symbol ∈ dom (heap s) →
  let r := (_getInternalSymbol symbol s).1 in
  let s' := (_getInternalSymbol symbol s).2 in
  r = fresh_ref s ∧ r ∈ dom (heap s') ∧
  get_obj s' symbol = get_obj s symbol ∧
  get_obj s' r =
    reversed "textVerticalAlignment" "top" "bottom"
      (reversed "textHorizontalAlignment" "left" "right"
         (get_obj s symbol)).
Proof.
  intros Hin. unfold _getInternalSymbol. simpl.
  pose proof (fresh_ref_new s) as Hr.
  set (r := fresh_ref s) in *.
  set (s1 := set_heap (<[r := get_obj s symbol]> (heap s)) s).
  assert (symbol ≠ r) as Hne by (intros Heq; by rewrite <- Heq in Hr).
  assert (get_obj s1 r = get_obj s symbol) as H1r
    by (unfold get_obj, s1; simpl; by rewrite lookup_insert_eq).
  assert (get_obj s1 symbol = get_obj s symbol) as H1s
    by (unfold get_obj, s1; simpl; by rewrite lookup_insert_ne).
  assert (r ∈ dom (heap s1)) as Hd1.
  { unfold s1. simpl. rewrite dom_insert_L.
    apply elem_of_union_l, elem_of_singleton. done. }
  destruct (swap_prop_obj "textHorizontalAlignment" "left" "right" r s1)
    as (H2r & H2o & Hd2).
  set (s2 := swap_prop "textHorizontalAlignment" "left" "right" r s1) in *.
  destruct (swap_prop_obj "textVerticalAlignment" "top" "bottom" r s2)
    as (H3r & H3o & Hd3).
  split; [done|]. split; [by apply Hd3, Hd2|]. split.
  - rewrite H3o, H2o by done. exact H1s.
  - by rewrite H3r, H2r, H1r.
Qed.

(** X17: [_getInternalSymbol] returns a new object and leaves the symbol of
    the text box as it is; the new object has the properties of the symbol
    with left and right, and top and bottom, exchanged in the two alignment
    properties and every other property kept; and taking the internal
    symbol of the internal symbol gives the properties of the symbol
    back. *)
Theorem internal_symbol_reverses_alignment symbol s :
  symbol ∈ dom (heap s) →
  let r1 := (_getInternalSymbol symbol s).1 in
  let s1 := (_getInternalSymbol symbol s).2 in
  let r2 := (_getInternalSymbol r1 s1).1 in
  let s2 := (_getInternalSymbol r1 s1).2 in
  (r1 ∉ dom (heap s)) ∧
  get_obj s1 symbol = get_obj s symbol ∧
  (∀ k, k ≠ "textHorizontalAlignment" → k ≠ "textVerticalAlignment" →
        get_prop s1 r1 k = get_prop s symbol k) ∧
  (get_prop s symbol "textHorizontalAlignment" = VStr "left" →
   get_prop s1 r1 "textHorizontalAlignment" = VStr "right") ∧
  (get_prop s symbol "textHorizontalAlignment" = VStr "right" →
   get_prop s1 r1 "textHorizontalAlignment" = VStr "left") ∧
  (get_prop s symbol "textVerticalAlignment" = VStr "top" →
   get_prop s1 r1 "textVerticalAlignment" = VStr "bottom") ∧
  (get_prop s symbol "textVerticalAlignment" = VStr "bottom" →
   get_prop s1 r1 "textVerticalAlignment" = VStr "top") ∧
  get_obj s2 r2 = get_obj s symbol.
Proof.
  intros Hin r1 s1 r2 s2.
  destruct (internal_symbol_spec symbol s Hin) as (Hr1 & Hin1 & Hsym & Hobj).
  fold r1 s1 in Hr1, Hin1, Hsym, Hobj.
  destruct (internal_symbol_spec r1 s1 Hin1) as (_ & _ & _ & Hobj2).
  fold r2 s2 in Hobj2.
  set (o := get_obj s symbol) in *.
  assert (∀ v k, get_prop s symbol k = VStr v → o !! k = Some (VStr v))
    as Hget.
  { intros v k. unfold get_prop. fold o.
    destruct (o !! k); simpl; congruence. }
  assert (∀ v, o !! "textHorizontalAlignment" = Some (VStr v) →
     get_obj s1 r1 !! "textHorizontalAlignment" =
     Some (VStr (if bool_decide (v = "left") then "right"
                 else if bool_decide (v = "right") then "left" else v)))
    as Hh.
  { intros v Hv. rewrite Hobj, reversed_other by done.
    by apply reversed_at. }
  assert (∀ v, o !! "textVerticalAlignment" = Some (VStr v) →
     get_obj s1 r1 !! "textVerticalAlignment" =
     Some (VStr (if bool_decide (v = "top") then "bottom"
                 else if bool_decide (v = "bottom") then "top" else v)))
    as Hv.
  { intros v Hv. rewrite Hobj. apply reversed_at; [done|].
    by rewrite reversed_other. }
  split; [rewrite Hr1; apply fresh_ref_new|]. split; [done|].
  split; [|split; [|split; [|split; [|split]]]].
  - intros k Hk1 Hk2. unfold get_prop. rewrite Hobj. fold o.
    by rewrite !reversed_other.
  - intros Hl%Hget. unfold get_prop. by rewrite (Hh _ Hl).
  - intros Hl%Hget. unfold get_prop. by rewrite (Hh _ Hl).
  - intros Hl%Hget. unfold get_prop. by rewrite (Hv _ Hl).
  - intros Hl%Hget. unfold get_prop. by rewrite (Hv _ Hl).
  - rewrite Hobj2, Hobj.
    rewrite (reversed_commute "textHorizontalAlignment"
               "textVerticalAlignment") by done.
    rewrite reversed_twice by done. by apply reversed_twice.
Qed.

End TextBoxFacts.

(** ** What a pass does to the registrations *)

Section RegistrationsFacts.

Context {X : Type}.
Variable body : code → option ref → list value → store X → value * store X.
Hypothesis body_events : ∀ c, leaves_events body c.

Implicit Types (s : store X) (chain : list subscriber).

Lemma wrappers_left_refl s : wrappers_left s s.
Proof. by intros e t sub. Qed.

Lemma wrappers_left_trans s1 s2 s3 :
  wrappers_left s1 s2 → wrappers_left s2 s3 → wrappers_left s1 s3.
Proof.
  intros H12 H23 e t sub. destruct (H12 e t sub), (H23 e t sub).
  split; auto.
Qed.

Lemma wrappers_left_emitters s s' :
  emitters s' = emitters s → wrappers_left s s'.
Proof.
  intros He e t sub. unfold registered.
  by rewrite (get_chain_emitters _ _ _ _ He).
Qed.

(** [off] adds no subscriber. *)
Lemma off_types_adds_nothing this h ctx tys s e t sub :
  registered (off_types this h ctx tys s) e t sub → registered s e t sub.
Proof.
  revert s. induction tys as [|ty rest IH]; intros s; simpl; [done|].
  destruct (get_chain s this (toLowerCase ty)) as [c|] eqn:Hc; [|done].
  intros Hr%IH. apply registered_set_chain in Hr.
  case_decide as Heq; [|done]. injection Heq as <- <-.
  rewrite off_scan_filter in Hr. apply list_elem_of_filter in Hr as [_ Hin].
  by exists c.
Qed.

Lemma off_adds_nothing this tys h ctx s e t sub :
  registered (off this tys h ctx s) e t sub → registered s e t sub.
Proof.
  unfold off. destruct h as [h|]; [|done]. case_bool_decide; [done|].
  destruct (_eventMap (get_emitter s this)); [|done].
  apply off_types_adds_nothing.
Qed.

Lemma on_keeps this tys h ctx s e t sub :
  registered s e t sub → registered (on this tys h ctx s) e t sub.
Proof.
  intros Hr. unfold on. destruct h as [h|]; [|done].
  case_bool_decide; [done|]. apply on_types_keeps.
  destruct (_eventMap (get_emitter s this)) eqn:E; [done|].
  destruct Hr as (c & Hc & Hin). exists c. split; [|done].
  unfold get_chain in *. rewrite get_emitter_set.
  case_decide as He; [subst e|done]. by rewrite E in Hc.
Qed.

Lemma off_wrapper_left me tys cell me' t' h ctx' ctx s :
  wrappers_left s
    (off me tys (Some (OnceHandler cell me' t' h ctx')) ctx s).
Proof.
  intros e t sub. split; [apply off_adds_nothing|].
  intros Hn Hr. apply off_keeps; [|done]. intros Heq. apply Hn.
  by rewrite Heq.
Qed.

Lemma call_fn_wrappers_left f this args s :
  wrappers_left s (snd (fst (call_fn body f this args s))).
Proof.
  revert this s.
  induction f as [c|cell me evtType h IH ctx]; intros this s; simpl.
  - destruct (body_events c this args s) as [He _].
    destruct (body c this args s) as [r s1]. simpl in *.
    by apply wrappers_left_emitters.
  - destruct (default false (called s !! cell)); [apply wrappers_left_refl|].
    match goal with |- context [call_fn body h ?th args ?s1] =>
      pose proof (IH th s1) as H1;
      destruct (call_fn body h th args s1) as [[r s2] tr] end.
    simpl in *.
    eapply wrappers_left_trans; [|apply off_wrapper_left].
    eapply wrappers_left_trans; [|exact H1].
    by apply wrappers_left_emitters.
Qed.

Lemma fire_queue_wrappers_left p chain s :
  wrappers_left s (fst (fire_queue body p chain s)).
Proof.
  revert s. induction chain as [|sub chain IH]; intros s; simpl.
  - apply wrappers_left_refl.
  - match goal with |- context [call_fn body ?f ?th ?args ?s1] =>
      pose proof (call_fn_wrappers_left f th args s1) as H1;
      destruct (call_fn body f th args s1) as [[bubble s2] tr] end.
    match goal with |- context [fire_queue body p chain ?s0] =>
      assert (wrappers_left s2 s0) as H2;
      [|pose proof (IH s0) as H3;
        destruct (fire_queue body p chain s0) as [s4 tr']] end.
    { apply wrappers_left_emitters. destruct (bool_decide _); [|done].
      by destruct (truthy _). }
    simpl in *. eapply wrappers_left_trans; [|exact H3].
    eapply wrappers_left_trans; [|exact H2].
    eapply wrappers_left_trans; [|exact H1].
    by apply wrappers_left_emitters.
Qed.

Lemma _fire_wrappers_left this ty p s :
  wrappers_left s (fst (_fire body this ty p s)).
Proof.
  unfold _fire.
  destruct (get_chain s this (toLowerCase ty)); [|apply wrappers_left_refl].
  destruct (match p with Some p0 => (p0, s) | None => new_object s end)
    as [p0 s1] eqn:Ep.
  eapply wrappers_left_trans; [|apply fire_queue_wrappers_left].
  apply wrappers_left_emitters.
  by destruct p; injection Ep as <- <-.
Qed.

(** X18: a pass never adds a subscriber to any chain of any emitter and
    never removes one whose handler is a function of the program; the only
    subscribers that leave are closures of [once].  The functions of the
    program are taken to leave the registrations alone themselves. *)
Theorem pass_only_drops_once_closures this ty p s e t sub :
  (registered (_fire body this ty p s).1 e t sub → registered s e t sub) ∧
  (¬ is_once_fn (handler sub) → registered s e t sub →
   registered (_fire body this ty p s).1 e t sub).
Proof. apply _fire_wrappers_left. Qed.

(** [on] and [off] with an object of handlers. *)
Lemma switch_on_keeps this keys ctx s e t sub :
  registered s e t sub → registered (_switch To_on this keys ctx s) e t sub.
Proof.
  unfold _switch. revert s.
  induction keys as [|k keys IH]; intros s Hr; simpl; [done|].
  by apply IH, on_keeps.
Qed.

Lemma switch_on_registers this keys ctx s p f :
  (p, f) ∈ keys → p ≠ EmptyString → single_token p = true →
  registered (_switch To_on this keys ctx s) this (toLowerCase p)
    (Subscriber f (Some (default this ctx))).
Proof.
  intros Hin Hp Hs. unfold _switch. revert s.
  induction keys as [|k keys IH]; intros s; simpl.
  { by apply elem_of_nil in Hin. }
  apply elem_of_cons in Hin as [<-|Hin]; [|by apply IH].
  simpl. apply (switch_on_keeps this keys ctx).
  by apply on_registers.
Qed.

Lemma switch_off_adds_nothing this keys ctx s e t sub :
  registered (_switch To_off this keys ctx s) e t sub → registered s e t sub.
Proof.
  unfold _switch. revert s.
  induction keys as [|k keys IH]; intros s; simpl; [done|].
  intros Hr%IH. by apply off_adds_nothing in Hr.
Qed.

Lemma off_single_gone this t h ctx s :
  t ≠ EmptyString → single_token t = true →
  ¬ registered (off this t (Some h) ctx s) this (toLowerCase t)
      (Subscriber h (Some (default this ctx))).
Proof.
  intros Ht Hs.
  destruct (get_chain s this (toLowerCase t)) as [c|] eqn:Hc.
  - intros (c' & Hc' & Hin).
    rewrite (off_single _ _ _ _ _ _ Ht Hs Hc) in Hc'. injection Hc' as <-.
    apply list_elem_of_filter in Hin as [Hf _].
    by rewrite (proj2 (same_pair_true _ _ _) eq_refl) in Hf.
  - intros Hr%off_adds_nothing. destruct Hr as (c' & Hc' & _). congruence.
Qed.

Lemma switch_off_gone this keys ctx s p f :
  (p, f) ∈ keys → p ≠ EmptyString → single_token p = true →
  ¬ registered (_switch To_off this keys ctx s) this (toLowerCase p)
      (Subscriber f (Some (default this ctx))).
Proof.
  intros Hin Hp Hs. unfold _switch. revert s.
  induction keys as [|k keys IH]; intros s; simpl.
  { by apply elem_of_nil in Hin. }
  apply elem_of_cons in Hin as [<-|Hin]; [|by apply IH].
  simpl. intros Hr%(switch_off_adds_nothing this keys ctx).
  by apply off_single_gone in Hr.
Qed.

End RegistrationsFacts.

(** ** More on tools *)

Section MapToolMoreFacts.

Import MapTool.

Variable body :
  code → option ref → list value → store state → value * store state.

Hypothesis body_frame : leaves_frame body.

Implicit Types (s : store state) (t m : ref).

Lemma set_enabled_tool t b s t' :
  get_tool (set_enabled t b s) t' =
  if decide (t = t') then with_enabled b (get_tool s t) else get_tool s t'.
Proof. unfold set_enabled. apply get_tool_set_tool. Qed.

(** X19: [disable] and [enable] take effect once: after a [disable] of an
    enabled tool the tool is disabled and a second [disable] changes nothing
    and calls nothing (no second [disable] event); after an [enable] of a
    disabled tool that has a map the tool is enabled and a second [enable]
    changes nothing and calls nothing.  The callbacks and listeners of the
    program are taken to leave the tools and the delegation targets alone,
    and the tool does not delegate its events. *)
Theorem toggles_take_effect_once n t m s :
  _map (get_tool s t) = Some m →
  _eventParent (get_emitter s t) = None →
  (_enabled (get_tool s t) = true →
   ∃ s' tr, disable body (S n) t s = Some (s', tr) ∧
            isEnabled t s' = false ∧
            ∀ fuel, disable body fuel t s' = Some (s', [])) ∧
  (_enabled (get_tool s t) = false →
   ∃ s' tr, enable body (S n) t s = Some (s', tr) ∧
            isEnabled t s' = true ∧
            ∀ fuel, enable body fuel t s' = Some (s', [])).
Proof.
  intros Hm Hp. split.
  - intros Hen.
    destruct (disable_enabled body body_frame n t m s Hen Hm Hp)
      as (s' & tr & Hd & [He _]).
    exists s', tr. split; [done|].
    assert (_enabled (get_tool s' t) = false) as Hoff.
    { rewrite (get_tool_ext _ _ t He), set_enabled_tool.
      by rewrite decide_True. }
    split; [unfold isEnabled; by rewrite Hoff|].
    intros fuel. unfold disable. by rewrite Hoff.
  - intros Hen.
    destruct (enable_with_map body body_frame n t m s Hm Hp)
      as (s' & tr & He & Hon & Hm' & _).
    exists s', tr. split; [done|].
    split; [unfold isEnabled; by rewrite Hon|].
    intros fuel. unfold enable. by rewrite Hm', Hon.
Qed.

(** X20: [enable] does not look at the slot of the map: a disabled tool
    that has a map is enabled by [enable] although another enabled tool of
    its type holds the slot, which then still holds that other tool; both
    are enabled together. *)
Theorem enable_ignores_slot n t t' m key s :
  t ≠ t' →
  _map (get_tool s t) = Some m →
  _eventParent (get_emitter s t) = None →
  get_slot s m key = Some t' →
  _enabled (get_tool s t') = true →
  ∃ s' tr, enable body (S n) t s = Some (s', tr) ∧
           isEnabled t s' = true ∧
           isEnabled t' s' = true ∧
           get_slot s' m key = Some t'.
Proof.
  intros Hne Hm Hp Hslot Hen'.
  destruct (enable_with_map body body_frame n t m s Hm Hp)
    as (s' & tr & He & Hon & _ & Ho & Hpr & _).
  exists s', tr. split; [done|]. unfold isEnabled, get_slot in *.
  rewrite Hon, (Ho t') by done. rewrite Hen', Hpr. done.
Qed.

(** X21: [addTo] on a map whose slot for the type of the tool is empty:
    the tool gets the map, is enabled and holds the slot, and every other
    tool is as it was. *)
Theorem addTo_takes_empty_slot n t m s :
  get_slot s m ("_tool" +:+ name (get_tool s t)) = None →
  _eventParent (get_emitter s t) = None →
  ∃ s' tr, addTo body (S n) t (Some m) s = Some (s', tr) ∧
           getMap t s' = Some m ∧
           isEnabled t s' = true ∧
           get_slot s' m ("_tool" +:+ name (get_tool s t)) = Some t ∧
           ∀ t', t' ≠ t → get_tool s' t' = get_tool s t'.
Proof.
  intros Hslot Hp. unfold addTo.
  set (s1 := set_map t m s).
  assert (∀ t', get_tool s1 t' =
                if decide (t = t') then with_map m (get_tool s t)
                else get_tool s t') as Ht1
    by (intros t'; apply get_tool_set_tool).
  assert (name (get_tool s1 t) = name (get_tool s t)) as ->
    by (by rewrite Ht1, decide_True).
  assert (get_slot s1 m ("_tool" +:+ name (get_tool s t)) = None) as ->
    by exact Hslot.
  simpl.
  pose proof (call_hook_framed body body_frame (onAdd (get_tool s1 t)) t s1)
    as H3.
  destruct (call_hook body (onAdd (get_tool s1 t)) t s1) as [s3 tr2].
  simpl in H3. destruct H3 as [He3 Hpar3].
  destruct (enable_with_map body body_frame n t m s3)
    as (s4 & tr3 & Hen & Hen4 & Hm4 & Ho4 & Hpr4 & Hpar4).
  { by rewrite (get_tool_ext _ _ t He3), Ht1, decide_True. }
  { by rewrite Hpar3. }
  rewrite Hen. simpl.
  set (key := "_tool" +:+ name (get_tool s t)).
  set (s5 := set_slot m key t s4).
  destruct (_fireEvent_returns body body_frame n t "add" s5)
    as (s6 & tr4 & Hf & [He6 _]).
  { change (_eventParent (get_emitter s4 t) = None).
    by rewrite Hpar4, Hpar3. }
  rewrite Hf. simpl. eexists _, _. split; [done|].
  assert (∀ t', get_tool s6 t' = get_tool s4 t') as Ht6
    by (intros t'; by rewrite (get_tool_ext _ _ t' He6)).
  unfold getMap, isEnabled, get_slot. rewrite !Ht6, Hm4, Hen4.
  split; [done|]. split; [done|]. split.
  - rewrite He6. unfold s5. simpl. apply lookup_insert_eq.
  - intros t' Hne. rewrite Ht6, (Ho4 t') by done.
    rewrite (get_tool_ext _ _ t' He3), Ht1. by rewrite decide_False.
Qed.

Hypothesis body_events : ∀ c, leaves_events body c.

Lemma call_hook_wrappers_left hook t s :
  wrappers_left s (fst (call_hook body hook t s)).
Proof.
  unfold call_hook. destruct hook as [f|]; [|apply wrappers_left_refl].
  pose proof (call_fn_wrappers_left body body_events f (Some t) [] s) as H.
  by destruct (call_fn body f (Some t) [] s) as [[r s1] tr].
Qed.

Lemma _fireEvent_wrappers_left fuel t eventName s s' tr :
  _fireEvent body fuel t eventName None s = Some (s', tr) →
  wrappers_left s s'.
Proof.
  unfold _fireEvent. destruct (new_object s) as [r s1] eqn:E.
  assert (wrappers_left s s1) as H1.
  { apply wrappers_left_emitters. by injection E as <- <-. }
  destruct (fire body fuel t eventName (Some r) s1) as [[[r' s2] tr2]|] eqn:Ef;
    [|done].
  simpl. intros [= <- <-].
  eapply wrappers_left_trans; [exact H1|].
  clear E H1. revert t Ef.
  induction fuel as [|fuel IH]; intros t; simpl; [done|].
  destruct (_eventParent (get_emitter s1 t)); [apply IH|].
  pose proof (_fire_wrappers_left body body_events t eventName (Some r) s1)
    as Hw.
  destruct (_fire body t eventName (Some r) s1) as [s3 tr3].
  by intros [= <- <- <-].
Qed.

(** X22: [enable] registers the events the tool declares on its map, with
    the tool as context, and [disable] unregisters them: after [enable] of a
    disabled tool each declared (type, function) pair is in the chain of the
    type on the map, and after [disable] of an enabled tool it is in none.
    The callbacks and listeners of the program are taken to leave the tools,
    the delegation targets and the registrations alone; the declared types
    are single tokens. *)
Theorem enable_registers_disable_unregisters n t m events p c s :
  _map (get_tool s t) = Some m →
  _eventParent (get_emitter s t) = None →
  getEvents (get_tool s t) = Some events →
  (p, Native c) ∈ events → p ≠ EmptyString → single_token p = true →
  (_enabled (get_tool s t) = false →
   ∃ s' tr, enable body (S n) t s = Some (s', tr) ∧
            registered s' m (toLowerCase p)
              (Subscriber (Native c) (Some t))) ∧
  (_enabled (get_tool s t) = true →
   ∃ s' tr, disable body (S n) t s = Some (s', tr) ∧
            ¬ registered s' m (toLowerCase p)
                (Subscriber (Native c) (Some t))).
Proof.
  intros Hm Hp Hev Hin Hpne Hps. split.
  - intros Hen.
    destruct (enable_with_map body body_frame n t m s Hm Hp)
      as (s' & tr & He & _).
    exists s', tr. split; [done|].
    revert He. unfold enable. rewrite Hm, Hen.
    set (s1 := set_enabled t true s).
    assert (∀ s0, ext s0 = ext s1 →
              getEvents (get_tool s0 t) = Some events ∧
              _map (get_tool s0 t) = Some m) as Hsame.
    { intros s0 H0. rewrite (get_tool_ext _ _ t H0).
      unfold s1. rewrite set_enabled_tool, decide_True by done. done. }
    pose proof (_switchEvents_framed To_off t s1) as [He2 _].
    set (s2 := _switchEvents To_off t s1) in *.
    unfold _registerEvents.
    assert (registered (_switchEvents To_on t s2) m (toLowerCase p)
              (Subscriber (Native c) (Some t))) as Hr3.
    { unfold _switchEvents. destruct (Hsame s2 He2) as [-> ->].
      unfold on_keys. by apply (switch_on_registers m events (Some t)). }
    set (s3 := _switchEvents To_on t s2) in *.
    pose proof (call_hook_wrappers_left (onEnable (get_tool s3 t)) t s3)
      as H4.
    destruct (call_hook body (onEnable (get_tool s3 t)) t s3) as [s4 tr1].
    simpl in H4.
    destruct (_fireEvent body (S n) t "enable" None s4) as [[s5 tr2]|] eqn:Ef;
      [|done].
    simpl. intros [= <- <-].
    apply (_fireEvent_wrappers_left _ _ _ _ _ _ Ef); [by intros []|].
    apply H4; [by intros []|done].
  - intros Hen.
    destruct (disable_enabled body body_frame n t m s Hen Hm Hp)
      as (s' & tr & Hd & _).
    exists s', tr. split; [done|].
    revert Hd. unfold disable. rewrite Hen, Hm. simpl.
    set (s1 := set_enabled t false s).
    assert (getEvents (get_tool s1 t) = Some events ∧
            _map (get_tool s1 t) = Some m) as [Hev1 Hm1].
    { unfold s1. rewrite set_enabled_tool, decide_True by done. done. }
    assert (¬ registered (_switchEvents To_off t s1) m (toLowerCase p)
              (Subscriber (Native c) (Some t))) as Hr2.
    { unfold _switchEvents. rewrite Hev1, Hm1. unfold off_keys.
      destruct (_eventMap (get_emitter s1 m)) eqn:Em.
      - by apply (switch_off_gone m events (Some t)).
      - intros (q & Hq & _). unfold get_chain in Hq. by rewrite Em in Hq. }
    set (s2 := _switchEvents To_off t s1) in *.
    pose proof (call_hook_wrappers_left (onDisable (get_tool s2 t)) t s2)
      as H3.
    destruct (call_hook body (onDisable (get_tool s2 t)) t s2) as [s3 tr1].
    simpl in H3.
    destruct (_fireEvent body (S n) t "disable" None s3) as [[s4 tr2]|]
      eqn:Ef; [|done].
    simpl. intros [= <- <-] Hr. apply Hr2.
    apply H3. by apply (_fireEvent_wrappers_left _ _ _ _ _ _ Ef).
Qed.

End MapToolMoreFacts.

(** ** More on UI components *)

Section UIComponentMoreFacts.

Import UIComponent.

Context {Coordinate Dom : Type}.

Variable body :
  code → option ref → list value → store (@state Coordinate Dom) →
  value * store (@state Coordinate Dom).
Variable place_dom :
  ref → ref → store (@state Coordinate Dom) →
  store (@state Coordinate Dom).

Implicit Types (s : store (@state Coordinate Dom)).

Lemma get_component_ext s s' u :
  ext s' = ext s → get_component s' u = get_component s u.
Proof. intros H. unfold get_component. by rewrite H. Qed.

Lemma fold_on_keeps this map events s e t sub :
  registered s e t sub →
  registered
    (fold_left (λ s0 p, on map p.1 (Some p.2) (Some this) s0) events s)
    e t sub.
Proof.
  revert s. induction events as [|k events IH]; intros s Hr; simpl; [done|].
  by apply IH, on_keeps.
Qed.

Lemma fold_on_registers this map events s p f :
  (p, f) ∈ events → p ≠ EmptyString → single_token p = true →
  registered
    (fold_left (λ s0 p, on map p.1 (Some p.2) (Some this) s0) events s)
    map (toLowerCase p) (Subscriber f (Some this)).
Proof.
  intros Hin Hp Hs. revert s.
  induction events as [|k events IH]; intros s; simpl.
  { by apply elem_of_nil in Hin. }
  apply elem_of_cons in Hin as [<-|Hin]; [|by apply IH].
  simpl. apply fold_on_keeps.
  by apply (on_registers map p f (Some this)).
Qed.

Lemma fold_off_adds_nothing this map events s e t sub :
  registered
    (fold_left (λ s0 p, off map p.1 (Some p.2) (Some this) s0) events s)
    e t sub →
  registered s e t sub.
Proof.
  revert s. induction events as [|k events IH]; intros s; simpl; [done|].
  intros Hr%IH. by apply off_adds_nothing in Hr.
Qed.

Lemma fold_off_gone this map events s p f :
  (p, f) ∈ events → p ≠ EmptyString → single_token p = true →
  ¬ registered
      (fold_left (λ s0 p, off map p.1 (Some p.2) (Some this) s0) events s)
      map (toLowerCase p) (Subscriber f (Some this)).
Proof.
  intros Hin Hp Hs. revert s.
  induction events as [|k events IH]; intros s; simpl.
  { by apply elem_of_nil in Hin. }
  apply elem_of_cons in Hin as [<-|Hin]; [|by apply IH].
  simpl. intros Hr%fold_off_adds_nothing.
  by apply (off_single_gone map p f (Some this)) in Hr.
Qed.

Lemma ui_switchEvents_chains_only to this map s :
  chains_only s (_switchEvents to this map s).
Proof.
  unfold _switchEvents.
  generalize (match getEvents (get_component s this) with
              | Some more => extend _getDefaultEvents more
              | None => _getDefaultEvents
              end).
  intros events. revert s.
  induction events as [|k events IH]; intros s; simpl;
    [apply chains_only_refl|].
  eapply chains_only_trans; [|apply IH].
  destruct to; [apply on_chains_only|apply off_chains_only].
Qed.

(** X23: the listeners of a component on its map.  [_switchEvents('on')]
    registers on the map, with the component as context, each function of
    the component's events (the two defaults, extended by what [getEvents]
    of the concrete class returns), and a later [_switchEvents('off')]
    leaves none of them registered.  A component whose class has no
    [getEvents] listens to [zooming] with [onZooming] and to [zoomend] with
    [onZoomEnd].  Nothing but handler chains changes. *)
Theorem component_listeners_on_map this map s :
  let events := match getEvents (get_component s this) with
                | Some more => extend _getDefaultEvents more
                | None => _getDefaultEvents
                end in
  let s1 := _switchEvents To_on this map s in
  (∀ p f, (p, f) ∈ events → p ≠ EmptyString → single_token p = true →
     registered s1 map (toLowerCase p) (Subscriber f (Some this)) ∧
     ¬ registered (_switchEvents To_off this map s1) map (toLowerCase p)
         (Subscriber f (Some this))) ∧
  (getEvents (get_component s this) = None →
   registered s1 map "zooming" (Subscriber (Native OnZooming) (Some this)) ∧
   registered s1 map "zoomend" (Subscriber (Native OnZoomEnd) (Some this))) ∧
  chains_only s s1 ∧
  chains_only s (_switchEvents To_off this map s).
Proof.
  intros events s1.
  assert (∀ p f, (p, f) ∈ events → p ≠ EmptyString →
            single_token p = true →
            registered s1 map (toLowerCase p) (Subscriber f (Some this)))
    as Hon.
  { intros p f Hin Hp Hs. unfold s1, _switchEvents. fold events.
    by apply fold_on_registers. }
  split; [|split; [|split]].
  - intros p f Hin Hp Hs. split; [by apply Hon|].
    unfold _switchEvents at 1.
    pose proof (ui_switchEvents_chains_only To_on this map s)
      as (_ & _ & _ & He & _).
    fold s1 in He. rewrite (get_component_ext _ _ this He). fold events.
    by apply fold_off_gone.
  - intros Hg. subst events. rewrite Hg in Hon. split.
    + apply (Hon "zooming"); [|done|done]. apply list_elem_of_here.
    + apply (Hon "zoomend"); [|done|done].
      apply list_elem_of_further, list_elem_of_here.
  - apply ui_switchEvents_chains_only.
  - apply ui_switchEvents_chains_only.
Qed.

(** X24: [show(c)] on a component that has no map to show on (it was never
    added, or its geometry is on no map) fires [showstart], whose listeners
    are all called, and then fails on the missing map: the coordinate is not
    kept and nothing is registered on a map.  The functions of the program
    are taken to leave the components and the delegation targets alone. *)
Theorem show_without_map n this c s :
  leaves_frame body →
  getMap this s = None →
  _eventParent (get_emitter s this) = None →
  ∃ s1 tr,
    show body place_dom (S n) this (Some c) s = Thrown "TypeError" s1 tr ∧
    direct tr = default [] (get_chain s this "showstart") ∧
    get_component s1 this = get_component s this.
Proof.
  intros Hb Hm Hp. unfold show, show_at.
  rewrite fire_no_parent by done.
  pose proof (_fire_framed body this "showstart" None s Hb) as [He _].
  pose proof (_fire_direct body this "showstart" None s) as Hd.
  destruct (_fire body this "showstart" None s) as [s1 tr]. simpl in *.
  assert (getMap this s1 = None) as ->.
  { unfold getMap. rewrite (get_component_ext _ _ this He), He. exact Hm. }
  eexists _, _. split; [done|]. split; [exact Hd|].
  by apply get_component_ext.
Qed.

(** X25: [getMap] after [addTo]: added to a map, the component answers
    that map; added to a geometry, the map the geometry is on; the listeners
    of [add] are all called.  The functions of the program are taken to
    leave the components, the geometries and the delegation targets
    alone. *)
Theorem addTo_then_getMap n this o s :
  leaves_frame body →
  _eventParent (get_emitter s this) = None →
  ∃ s' tr,
    addTo body (S n) this o s = Some (s', tr) ∧
    getMap this s' =
      match o with
      | OwnerMap m => Some m
      | OwnerGeometry g => geometry_map (ext s) !! g
      end ∧
    direct tr = default [] (get_chain s this "add") ∧
    ∀ u, u ≠ this → get_component s' u = get_component s u.
Proof.
  intros Hb Hp. unfold addTo.
  set (cm := Component (Some o) _ _ _).
  set (s1 := set_component this cm s).
  assert (_eventParent (get_emitter s1 this) = None) as Hp1 by exact Hp.
  rewrite fire_no_parent by done.
  pose proof (_fire_framed body this "add" None s1 Hb) as [He _].
  pose proof (_fire_direct body this "add" None s1) as Hd.
  destruct (_fire body this "add" None s1) as [s2 tr].
  cbn [fst snd] in He, Hd |- *.
  eexists _, _. split; [done|].
  assert (∀ u, get_component s2 u =
               if decide (this = u) then cm else get_component s u) as Hc.
  { intros u. rewrite (get_component_ext _ _ u He).
    unfold get_component at 1. unfold s1. simpl. rewrite lookup_insert.
    by case_decide. }
  split; [|split].
  - unfold getMap. rewrite Hc, decide_True by done. rewrite He.
    by destruct o.
  - exact Hd.
  - intros u Hu. rewrite Hc. by rewrite decide_False.
Qed.

End UIComponentMoreFacts.

(** ** The closure of once *)

Section OnceFacts.

Context {X : Type}.
Variable body : code → option ref → list value → store X → value * store X.
Hypothesis body_events : ∀ c, leaves_events body c.

Implicit Types (s : store X) (chain q : list subscriber).
























End OnceFacts.

(** ** Taking the slot of another tool *)

Section OnAddsOwn.

Context {X : Type}.

Implicit Types (s : store X).




End OnAddsOwn.

Section EvictionFacts.

Import MapTool.

Variable body :
  code → option ref → list value → store state → value * store state.

Hypothesis body_frame : leaves_frame body.
Hypothesis body_events : ∀ c, leaves_events body c.

Implicit Types (s : store state) (t m : ref).





End EvictionFacts.

(** ** The coordinate of show *)

Section ShowFacts.

Import UIComponent.

Context {Coordinate Dom : Type}.

Variable body :
  code → option ref → list value → store (@state Coordinate Dom) →
  value * store (@state Coordinate Dom).
Variable place_dom :
  ref → ref → store (@state Coordinate Dom) →
  store (@state Coordinate Dom).

Implicit Types (s : store (@state Coordinate Dom)).

Lemma getMap_same s s' u :
  _owner (get_component s' u) = _owner (get_component s u) →
  geometry_map (ext s') = geometry_map (ext s) →
  getMap u s' = getMap u s.
Proof. intros Ho Hg. unfold getMap. by rewrite Ho, Hg. Qed.

(** A [show] with a coordinate on a component that has a map returns, and
    the component holds the coordinate afterwards. *)
Lemma show_at_stores n this c m s :
  leaves_frame body → places_dom_only place_dom →
  getMap this s = Some m → _eventParent (get_emitter s this) = None →
  ∃ s' tr,
    show_at body place_dom (S n) this c s = Returned s' tr ∧
    _coordinate (get_component s' this) = Some c ∧
    getMap this s' = Some m ∧
    _eventParent (get_emitter s' this) = None.
Proof.
  intros Hb Hd Hm Hp. unfold show_at.
  rewrite fire_no_parent by done.
  pose proof (_fire_framed body this "showstart" None s Hb) as [He1 Hp1].
  destruct (_fire body this "showstart" None s) as [s1 tr1].
  cbn [fst snd] in He1, Hp1 |- *.
  assert (getMap this s1 = Some m) as ->.
  { rewrite <- Hm. apply getMap_same; [|by rewrite He1].
    by rewrite (get_component_ext _ _ this He1). }
  set (s2 := match __uiDOM (get_component s1 this) with
             | Some _ => s1
             | None => _switchEvents To_on this m s1
             end).
  assert (chains_only s1 s2) as (_ & _ & _ & He2 & Hp2).
  { unfold s2. destruct (__uiDOM (get_component s1 this));
      [apply chains_only_refl|apply ui_switchEvents_chains_only]. }
  set (s3 := set_coordinate this c s2).
  assert (get_component s3 this =
          Component (_owner (get_component s2 this)) (Some c)
            (__uiDOM (get_component s2 this))
            (getEvents (get_component s2 this))) as Hc3.
  { unfold s3, set_coordinate, get_component at 1. simpl.
    by rewrite lookup_insert_eq. }
  destruct (Hd this m s3) as (Hf4 & Hg4 & Hp4).
  destruct (Hf4 this) as [Ho4 Hco4].
  set (s4 := place_dom this m s3) in *.
  assert (_eventParent (get_emitter s4 this) = None) as Hpar4.
  { rewrite Hp4. change (_eventParent (get_emitter s2 this) = None).
    by rewrite Hp2, Hp1. }
  rewrite fire_no_parent by done.
  pose proof (_fire_framed body this "showend" None s4 Hb) as [He5 Hp5].
  destruct (_fire body this "showend" None s4) as [s5 tr2].
  cbn [fst snd] in He5, Hp5 |- *.
  eexists _, _. split; [done|].
  rewrite (get_component_ext _ _ this He5).
  split; [by rewrite Hco4, Hc3|]. split; [|by rewrite Hp5].
  rewrite <- Hm. transitivity (getMap this s4).
  { apply getMap_same; [|by rewrite He5].
    by rewrite (get_component_ext _ _ this He5). }
  apply getMap_same.
  - rewrite Ho4, Hc3. simpl.
    by rewrite (get_component_ext _ _ this He2),
               (get_component_ext _ _ this He1).
  - rewrite Hg4. change (geometry_map (ext s2) = geometry_map (ext s)).
    by rewrite He2, He1.
Qed.

(** C8: [show()] without a coordinate shows at the coordinate of the last
    [show].  When the component holds none (it was never shown), [show()]
    throws, the store is the one it was called with and no function has
    been called: [showstart] is not fired; a [show] that is given a
    coordinate never ends in that error.  A [show(c)] on a component that
    has a map returns and leaves [c] on the component, and the [show()] that
    follows is [show(c)]: it returns as well and [c] is still the
    coordinate.  For the last part the listeners are taken to leave the
    components and the delegation targets alone, and the DOM part of [show]
    to assign neither owner nor coordinate. *)
Theorem show_without_coordinate fuel n this s :
  show body place_dom fuel this None s =
    match _coordinate (get_component s this) with
    | Some c => show body place_dom fuel this (Some c) s
    | None => Thrown "UI's show coordinate is invalid" s []
    end ∧
  (∀ c s' tr,
     show body place_dom fuel this (Some c) s ≠
     Thrown "UI's show coordinate is invalid" s' tr) ∧
  (∀ c m,
     leaves_frame body → places_dom_only place_dom →
     getMap this s = Some m → _eventParent (get_emitter s this) = None →
     ∃ s1 tr1 s2 tr2,
       show body place_dom (S n) this (Some c) s = Returned s1 tr1 ∧
       _coordinate (get_component s1 this) = Some c ∧
       show body place_dom (S n) this None s1 =
         show body place_dom (S n) this (Some c) s1 ∧
       show body place_dom (S n) this None s1 = Returned s2 tr2 ∧
       _coordinate (get_component s2 this) = Some c).
Proof.
  split; [|split].
  - unfold show. by destruct (_coordinate (get_component s this)).
  - intros c s' tr. unfold show, show_at.
    destruct (fire body fuel this "showstart" None s) as [[[r s1] tr1]|];
      [|done].
    destruct (getMap this s1) as [map|]; [|done].
    by destruct (fire body fuel this "showend" None _) as [[[r' s5] tr2]|].
  - intros c m Hb Hd Hm Hp.
    destruct (show_at_stores n this c m s Hb Hd Hm Hp)
      as (s1 & tr1 & Hs1 & Hc1 & Hm1 & Hp1).
    destruct (show_at_stores n this c m s1 Hb Hd Hm1 Hp1)
      as (s2 & tr2 & Hs2 & Hc2 & _).
    exists s1, tr1, s2, tr2. unfold show. rewrite Hc1.
    by repeat split.
Qed.

End ShowFacts.

(** ** The further properties on concrete programs *)

Section CasesFacts.

Import Demo Cases.

Lemma s0_nodup : nodup_chains s0.
Proof. intros e t chain H. unfold get_chain, get_emitter in H. done. Qed.

Lemma one_listener_nodup : nodup_chains one_listener.
Proof. apply nodup_on, s0_nodup. Qed.

Lemma registration_keeps_chains_nodup_witness :
  nodup_chains one_listener ∧
  nodup_chains (on 0 "click tap" (Some h1) None one_listener) ∧
  nodup_chains (off 0 "click" (Some h2) None one_listener) ∧
  nodup_chains (once 0 "click" h2 None one_listener).
Proof.
  split; [exact one_listener_nodup|].
  destruct (registration_keeps_chains_nodup 0 "click tap" (Some h1) h2 None
              one_listener one_listener_nodup) as (Hon & _ & _).
  destruct (registration_keeps_chains_nodup 0 "click" (Some h2) h2 None
              one_listener one_listener_nodup) as (_ & Hoff & Honce).
  split; [exact Hon|]. split; [exact Hoff|exact Honce].
Defined.

Lemma one_listener_without_h1 :
  ¬ registered one_listener 0 (toLowerCase "click")
      (Subscriber h1 (Some (default 0 None))).
Proof. intros H. by apply one_listener_not_h1 in H. Qed.

Lemma off_undoes_on_witness :
  "click" ≠ EmptyString ∧ single_token "click" = true ∧
  ¬ registered one_listener 0 (toLowerCase "click")
      (Subscriber h1 (Some (default 0 None))) ∧
  get_chain
    (off 0 "click" (Some h1) None (on 0 "click" (Some h1) None one_listener))
    0 "click" = Some [Subscriber h2 (Some 0)].
Proof.
  split; [discriminate|]. split; [reflexivity|].
  split; [exact one_listener_without_h1|].
  destruct (off_undoes_on 0 "click" h1 None one_listener) as [Hc _].
  - discriminate.
  - reflexivity.
  - exact one_listener_without_h1.
  - exact Hc.
Defined.

Lemma off_removes_the_pair_witness :
  "click" ≠ EmptyString ∧ single_token "click" = true ∧
  ¬ registered (off 0 "click" (Some h2) None one_listener) 0 "click"
      (Subscriber h2 (Some 0)).
Proof.
  split; [discriminate|]. split; [reflexivity|].
  destruct (off_removes_the_pair 0 "click" "click" h2 None one_listener)
    as [_ Hg].
  - discriminate.
  - reflexivity.
  - exact Hg.
Defined.

Lemma refusing_leaves_stopped : leaves_stopped refusing.
Proof. by intros c this args s. Qed.

Lemma refusing_keeps_objects : keeps_objects refusing.
Proof. by intros c this args s. Qed.

Lemma refusing_spares p : spares refusing p.
Proof. by intros c this args s _. Qed.

Lemma refusing_all_refuse : all_refuse refusing.
Proof. by intros c this args s. Qed.

Lemma scribbling_leaves_stopped : leaves_stopped scribbling.
Proof.
  intros c this args s. unfold scribbling.
  by destruct args as [|[| | | |r] [|]].
Qed.

Lemma once_handlers_stop_nothing_witness :
  leaves_stopped refusing ∧
  get_chain once_listener 0 (toLowerCase "click") =
    Some [Subscriber (OnceHandler 0 0 "click" h1 None) (Some 0)] ∧
  truthy (get_prop once_listener 5 "domEvent") = true ∧
  stopped (_fire refusing 0 "click" (Some 5) once_listener).1 = [].
Proof.
  split; [exact refusing_leaves_stopped|]. split; [reflexivity|].
  split; [reflexivity|].
  apply (once_handlers_stop_nothing refusing 0 "click" (Some 5)
           [Subscriber (OnceHandler 0 0 "click" h1 None) (Some 0)]
           once_listener).
  - exact refusing_leaves_stopped.
  - reflexivity.
  - constructor; [exact I|constructor].
Defined.

Lemma no_dom_event_nothing_stopped_witness :
  keeps_objects scribbling ∧ spares scribbling 5 ∧
  leaves_stopped scribbling ∧
  truthy (get_prop with_payload 5 "domEvent") = false ∧
  stopped (_fire scribbling 0 "x" (Some 5) with_payload).1 = [].
Proof.
  split; [exact scribbling_keeps_objects|].
  split; [exact (scribbling_spares 5)|].
  split; [exact scribbling_leaves_stopped|]. split; [reflexivity|].
  apply (no_dom_event_nothing_stopped scribbling 0 "x" (Some 5)
           with_payload).
  - exact scribbling_keeps_objects.
  - exact (scribbling_spares 5).
  - exact scribbling_leaves_stopped.
  - reflexivity.
Defined.

Lemma refusals_stop_event_not_pass_witness :
  all_refuse refusing ∧
  get_chain with_dom_event 0 (toLowerCase "x") =
    Some [Subscriber h1 (Some 0); Subscriber h2 (Some 0)] ∧
  get_prop with_dom_event 5 "domEvent" = VRef 6 ∧
  stopped (_fire refusing 0 "x" (Some 5) with_dom_event).1 =
    [VRef 6; VRef 6] ∧
  direct (_fire refusing 0 "x" (Some 5) with_dom_event).2 =
    [Subscriber h1 (Some 0); Subscriber h2 (Some 0)].
Proof.
  split; [exact refusing_all_refuse|]. split; [reflexivity|].
  split; [reflexivity|].
  apply (refusals_stop_event_not_pass refusing 0 "x" (Some 5)
           [Subscriber h1 (Some 0); Subscriber h2 (Some 0)] (VRef 6)
           with_dom_event).
  - exact refusing_keeps_objects.
  - exact (refusing_spares 5).
  - exact refusing_leaves_stopped.
  - exact refusing_all_refuse.
  - reflexivity.
  - constructor; [by exists (User 1)|].
    constructor; [by exists (User 2)|constructor].
  - reflexivity.
  - reflexivity.
Defined.

Lemma once_keys_share_guard_witness :
  others (User 1) (default [] (get_chain one_listener 0 (toLowerCase "a"))) ∧
  others (User 1) (default [] (get_chain one_listener 0 (toLowerCase "b"))) ∧
  ∃ s1 tr1 s2 tr2,
    fire idle 1 0 "a" None
      (once_keys 0 [("a b", h1)] None one_listener) = Some (0, s1, tr1) ∧
    count_calls h1 tr1 = 1 ∧
    ¬ registered s1 0 "b"
        (Subscriber (OnceHandler 0 0 "a b" h1 None) (Some 0)) ∧
    fire idle 1 0 "b" None s1 = Some (0, s2, tr2) ∧
    count_calls h1 tr2 = 0.
Proof.
  assert (others (User 1) []) as Hnil by constructor.
  split; [exact Hnil|]. split; [exact Hnil|].
  destruct (once_keys_share_guard idle 0 0 "a" "b" (User 1) None None None
              one_listener) as (_ & _ & Hf).
  - discriminate.
  - reflexivity.
  - discriminate.
  - reflexivity.
  - discriminate.
  - apply idle_leaves_events.
  - exact Hnil.
  - exact Hnil.
  - reflexivity.
  - exact Hf.
Defined.

Lemma s0_without_h1 :
  ¬ registered s0 0 (toLowerCase "a") (Subscriber h1 (Some (default 0 None))).
Proof. intros (chain & Hc & _). discriminate. Qed.

Lemma on_tokens_in_turn_witness :
  "a" ≠ EmptyString ∧ single_token "a" = true ∧ "b c" ≠ EmptyString ∧
  on 0 "a b c" (Some h1) None s0 =
    on 0 "b c" (Some h1) None (on 0 "a" (Some h1) None s0).
Proof.
  split; [discriminate|]. split; [reflexivity|]. split; [discriminate|].
  destruct (on_tokens_in_turn 0 "a" "b c" h1 None s0) as [Hgo _].
  - discriminate.
  - reflexivity.
  - discriminate.
  - exact (Hgo s0_without_h1).
Defined.

Lemma off_tokens_in_turn_witness :
  "a" ≠ EmptyString ∧ single_token "a" = true ∧ "b" ≠ EmptyString ∧
  get_chain registered_b 0 (toLowerCase "a") = None ∧
  off 0 "a b" (Some h1) None registered_b = registered_b.
Proof.
  split; [discriminate|]. split; [reflexivity|]. split; [discriminate|].
  split; [reflexivity|].
  destruct (off_tokens_in_turn 0 "a" "b" h1 None registered_b) as [_ Hstop].
  - discriminate.
  - reflexivity.
  - discriminate.
  - exact (Hstop eq_refl).
Defined.

Lemma text_symbol_allocated : 7 ∈ dom (heap text_symbol).
Proof. apply elem_of_dom. eexists. reflexivity. Qed.

Lemma internal_symbol_reverses_alignment_witness :
  7 ∈ dom (heap text_symbol) ∧
  get_prop (TextBox._getInternalSymbol 7 text_symbol).2
    (TextBox._getInternalSymbol 7 text_symbol).1 "textHorizontalAlignment" =
    VStr "right" ∧
  get_prop (TextBox._getInternalSymbol 7 text_symbol).2
    (TextBox._getInternalSymbol 7 text_symbol).1 "textVerticalAlignment" =
    VStr "top" ∧
  get_prop (TextBox._getInternalSymbol 7 text_symbol).2
    (TextBox._getInternalSymbol 7 text_symbol).1 "textSize" = VNum 12.
Proof.
  split; [exact text_symbol_allocated|].
  destruct (internal_symbol_reverses_alignment 7 text_symbol
              text_symbol_allocated)
    as (_ & _ & Hk & Hl & _ & _ & Hb & _).
  split; [exact (Hl eq_refl)|]. split; [exact (Hb eq_refl)|].
  rewrite (Hk "textSize"); [reflexivity|discriminate|discriminate].
Defined.

Lemma pass_only_drops_once_closures_witness :
  (∀ c, leaves_events (@idle unit) c) ∧
  registered one_listener 0 "click" (Subscriber h2 (Some 0)) ∧
  registered (_fire idle 0 "click" None one_listener).1 0 "click"
    (Subscriber h2 (Some 0)).
Proof.
  assert (registered one_listener 0 "click" (Subscriber h2 (Some 0))) as Hr.
  { eexists. split; [reflexivity|]. apply list_elem_of_here. }
  split; [exact idle_leaves_events|]. split; [exact Hr|].
  destruct (pass_only_drops_once_closures idle idle_leaves_events 0 "click"
              None one_listener 0 "click" (Subscriber h2 (Some 0)))
    as [_ Hstay].
  apply Hstay; [|exact Hr]. intros [].
Defined.

Lemma toggles_take_effect_once_witness :
  MapTool._map (MapTool.get_tool one_tool 11) = Some 10 ∧
  _eventParent (get_emitter one_tool 11) = None ∧
  MapTool._enabled (MapTool.get_tool one_tool 11) = true ∧
  ∃ s' tr, MapTool.disable idle 1 11 one_tool = Some (s', tr) ∧
           MapTool.isEnabled 11 s' = false ∧
           ∀ fuel, MapTool.disable idle fuel 11 s' = Some (s', []).
Proof.
  split; [reflexivity|]. split; [reflexivity|]. split; [reflexivity|].
  destruct (toggles_take_effect_once idle idle_leaves_frame 0 11 10 one_tool)
    as [Hdis _].
  - reflexivity.
  - reflexivity.
  - exact (Hdis eq_refl).
Defined.

Lemma enable_ignores_slot_witness :
  MapTool.get_slot after_eviction 10 "_toolDistanceTool" = Some 12 ∧
  MapTool.isEnabled 11 after_eviction = false ∧
  ∃ s' tr, MapTool.enable idle 1 11 after_eviction = Some (s', tr) ∧
           MapTool.isEnabled 11 s' = true ∧
           MapTool.isEnabled 12 s' = true ∧
           MapTool.get_slot s' 10 "_toolDistanceTool" = Some 12.
Proof.
  split; [reflexivity|]. split; [reflexivity|].
  apply (enable_ignores_slot idle idle_leaves_frame 0 11 12 10
           "_toolDistanceTool" after_eviction).
  - lia.
  - reflexivity.
  - reflexivity.
  - reflexivity.
  - reflexivity.
Defined.

Lemma addTo_takes_empty_slot_witness :
  MapTool.get_slot no_tool 10 "_toolDistanceTool" = None ∧
  ∃ s' tr, MapTool.addTo idle 1 12 (Some 10) no_tool = Some (s', tr) ∧
           MapTool.getMap 12 s' = Some 10 ∧
           MapTool.isEnabled 12 s' = true ∧
           MapTool.get_slot s' 10 "_toolDistanceTool" = Some 12.
Proof.
  split; [reflexivity|].
  destruct (addTo_takes_empty_slot idle idle_leaves_frame 0 12 10 no_tool)
    as (s' & tr & Ha & Hm & He & Hs & _).
  - reflexivity.
  - reflexivity.
  - exists s', tr. split; [exact Ha|]. split; [exact Hm|].
    split; [exact He|exact Hs].
Defined.

Lemma enable_registers_disable_unregisters_witness :
  MapTool.getEvents (MapTool.get_tool one_tool 11) = Some [("click", h1)] ∧
  MapTool._enabled (MapTool.get_tool one_tool 11) = true ∧
  ∃ s' tr, MapTool.disable idle 1 11 one_tool = Some (s', tr) ∧
           ¬ registered s' 10 "click" (Subscriber h1 (Some 11)).
Proof.
  split; [reflexivity|]. split; [reflexivity|].
  destruct (enable_registers_disable_unregisters idle idle_leaves_frame
              idle_leaves_events 0 11 10 [("click", h1)] "click" (User 1)
              one_tool) as [_ Hdis].
  - reflexivity.
  - reflexivity.
  - reflexivity.
  - apply list_elem_of_here.
  - discriminate.
  - reflexivity.
  - exact (Hdis eq_refl).
Defined.

Lemma show_without_map_witness :
  UIComponent.getMap 20 one_component = None ∧
  ∃ s1 tr,
    UIComponent.show idle no_dom 1 20 (Some 4) one_component =
      UIComponent.Thrown "TypeError" s1 tr ∧
    direct tr = [Subscriber h1 (Some 20)] ∧
    UIComponent.get_component s1 20 =
      UIComponent.get_component one_component 20.
Proof.
  split; [reflexivity|].
  apply (show_without_map idle no_dom 0 20 4 one_component).
  - exact idle_leaves_frame.
  - reflexivity.
  - reflexivity.
Defined.

Lemma addTo_then_getMap_witness :
  _eventParent (get_emitter one_component 20) = None ∧
  ∃ s' tr,
    UIComponent.addTo idle 1 20 (UIComponent.OwnerGeometry 30) one_component =
      Some (s', tr) ∧
    UIComponent.getMap 20 s' = Some 10.
Proof.
  split; [reflexivity|].
  destruct (addTo_then_getMap idle 0 20 (UIComponent.OwnerGeometry 30)
              one_component) as (s' & tr & Ha & Hm & _).
  - exact idle_leaves_frame.
  - reflexivity.
  - exists s', tr. split; [exact Ha|exact Hm].
Defined.

Lemma fire_returns_iff_delegation_ends_witness :
  _eventParent (get_emitter self_parent 0) = Some 0 ∧
  (∀ fuel, fire idle fuel 0 "x" None self_parent = None) ∧
  ¬ ∃ r k, walk self_parent 0 r k.
Proof.
  split; [reflexivity|].
  destruct (fire_returns_iff_delegation_ends idle 0 "x" None self_parent)
    as [Hiff Hself].
  split; [exact (Hself eq_refl)|].
  intros Hw. apply Hiff in Hw as (fuel & res & Hf).
  rewrite (Hself eq_refl fuel) in Hf. discriminate.
Defined.

Lemma clearListeners_needs_lowercase_witness :
  toLowerCase "Click" ≠ "Click" ∧
  get_chain capital 0 "click" = Some [Subscriber h1 (Some 0)] ∧
  get_chain (_clearListeners 0 "Click" capital) 0 "click" =
    Some [Subscriber h1 (Some 0)] ∧
  get_chain (_clearListeners 0 "click" capital) 0 "click" = None.
Proof.
  split; [discriminate|]. split; [reflexivity|].
  destruct (clearListeners_needs_lowercase 0 "Click" capital)
    as (_ & Hkeep & _).
  destruct (clearListeners_needs_lowercase 0 "click" capital)
    as (Hgone & _ & _).
  split; [|exact (Hgone eq_refl)].
  assert (toLowerCase "Click" ≠ "Click") as Hcap by discriminate.
  exact (Hkeep Hcap).
Defined.

Lemma component_listeners_on_map_witness :
  UIComponent.getEvents (UIComponent.get_component one_component 20) = None ∧
  registered (UIComponent._switchEvents To_on 20 10 one_component) 10
    "zooming" (Subscriber (Native OnZooming) (Some 20)) ∧
  ¬ registered
      (UIComponent._switchEvents To_off 20 10
         (UIComponent._switchEvents To_on 20 10 one_component)) 10
      "zooming" (Subscriber (Native OnZooming) (Some 20)).
Proof.
  split; [reflexivity|].
  destruct (component_listeners_on_map 20 10 one_component)
    as (Hall & _ & _ & _).
  destruct (Hall "zooming" (Native OnZooming)) as [Hon Hoff].
  - apply list_elem_of_here.
  - discriminate.
  - reflexivity.
  - split; [exact Hon|exact Hoff].
Defined.

Lemma click_plain : plain_type "click".
Proof.
  unfold plain_type. intros H.
  repeat (apply elem_of_cons in H as [H|H]; [discriminate|]).
  by apply elem_of_nil in H.
Qed.

Lemma listens_counts_witness :
  plain_type "click" ∧
  listens 0 "click" None None one_listener = 1 ∧
  listens 0 "click" (Some h2) None one_listener = 1 ∧
  listens 0 "click" (Some h1) None one_listener = 0.
Proof.
  split; [exact click_plain|].
  destruct (listens_counts 0 "click" h2 None one_listener click_plain)
    as [Hall Hh2].
  destruct (listens_counts 0 "click" h1 None one_listener click_plain)
    as [_ Hh1].
  split; [exact Hall|]. split; [exact Hh2|exact Hh1].
Defined.








Lemma get_component_set_component {Coordinate Dom : Type} u cm
    (s : store (@UIComponent.state Coordinate Dom)) u' :
  UIComponent.get_component (UIComponent.set_component u cm s) u' =
  if decide (u = u') then cm else UIComponent.get_component s u'.
Proof.
  unfold UIComponent.get_component, UIComponent.set_component. simpl.
  rewrite lookup_insert. by case_decide.
Qed.

Lemma placing_dom_only : places_dom_only placing.
Proof.
  intros this map s. split; [|by split].
  intros u. unfold placing. rewrite get_component_set_component.
  by case_decide; subst.
Qed.

Lemma show_without_coordinate_witness :
  UIComponent._coordinate (UIComponent.get_component added_component 20) =
    None ∧
  UIComponent.show idle placing 1 20 None added_component =
    UIComponent.Thrown "UI's show coordinate is invalid" added_component [] ∧
  ∃ s1 tr1 s2 tr2,
    UIComponent.show idle placing 1 20 (Some 4) added_component =
      UIComponent.Returned s1 tr1 ∧
    UIComponent._coordinate (UIComponent.get_component s1 20) = Some 4 ∧
    UIComponent.show idle placing 1 20 None s1 =
      UIComponent.Returned s2 tr2 ∧
    UIComponent._coordinate (UIComponent.get_component s2 20) = Some 4.
Proof.
  split; [reflexivity|].
  destruct (show_without_coordinate idle placing 1 0 20 added_component)
    as (Hnone & _ & Hlast).
  split; [exact Hnone|].
  destruct (Hlast 4 10 idle_leaves_frame placing_dom_only eq_refl eq_refl)
    as (s1 & tr1 & s2 & tr2 & H1 & Hc1 & _ & H2 & Hc2).
  exists s1, tr1, s2, tr2.
  split; [exact H1|]. split; [exact Hc1|]. split; [exact H2|exact Hc2].
Defined.

End CasesFacts.
